(** * AVL tree of [avl_tree_visualizer.py]: model and verification

    The classes [TreeNode] and [AVLTree] are embedded as pure functions over
    an inductive tree whose nodes carry the stored [height] field.  Python
    integers are unbounded, so keys and heights are [Z].  An attribute access
    on [None] raises [AttributeError] in the source; every function that can
    perform one returns [option], with [None] for the raised exception. *)

From Stdlib Require Import ZArith Lia.
From stdpp Require Import base option list gmap sets sorting.

Local Open Scope Z_scope.

(** ** Data model *)

(** [TreeNode]: [Empty] is Python's [None]; [Node data left right height]
    mirrors the four attributes set by [TreeNode.__init__]. *)
Inductive TreeNode : Type :=
| Empty : TreeNode
| Node (data : Z) (left right : TreeNode) (height : Z) : TreeNode.

(** [TreeNode(data)]: a fresh leaf of height 1. *)
Definition new_node (data : Z) : TreeNode := Node data Empty Empty 1.

(** ** Height bookkeeping *)

(** [AVLTree._get_height] *)
Definition _get_height (root : TreeNode) : Z :=
  match root with
  | Empty => 0
  | Node _ _ _ h => h
  end.

(** [AVLTree._get_balance] *)
Definition _get_balance (root : TreeNode) : Z :=
  match root with
  | Empty => 0
  | Node _ l r _ => _get_height l - _get_height r
  end.

(** The statement [root.height = 1 + max(...)] applied to a node whose
    children have just been (re)assigned. *)
Definition update_height (d : Z) (l r : TreeNode) : TreeNode :=
  Node d l r (1 + Z.max (_get_height l) (_get_height r)).

(** ** Rotations *)

(** [AVLTree._left_rotate]: [y = z.right] and [T2 = y.left] raise when [z]
    or [z.right] is [None]. *)
Definition _left_rotate (z : TreeNode) : option TreeNode :=
  match z with
  | Node zd zl (Node yd T2 yr _) _ =>
      let z' := update_height zd zl T2 in
      Some (update_height yd z' yr)
  | _ => None
  end.

(** [AVLTree._right_rotate] *)
Definition _right_rotate (z : TreeNode) : option TreeNode :=
  match z with
  | Node zd (Node yd yl T3 _) zr _ =>
      let z' := update_height zd T3 zr in
      Some (update_height yd yl z')
  | _ => None
  end.

(** [root.left.data] and [root.right.data]: reading [data] of [None] raises. *)
Definition data_of (n : TreeNode) : option Z :=
  match n with
  | Empty => None
  | Node d _ _ _ => Some d
  end.

(** ** Search *)

(** [AVLTree._search_recursive] *)
Fixpoint _search_recursive (root : TreeNode) (data : Z) : bool :=
  match root with
  | Empty => false
  | Node d l r _ =>
      if bool_decide (d = data) then true
      else if bool_decide (data < d) then _search_recursive l data
      else _search_recursive r data
  end.

(** ** Insertion *)

(** Python's short-circuit [b and c]: [c] is evaluated, and may raise, only
    when [b] is true. *)
Definition py_and (b : bool) (c : option bool) : option bool :=
  if b then c else Some false.

(** The part of [_insert_recursive] after the recursive call: the height
    update and the four rotation cases, tested in the source's order
    (Left Left, Right Right, Left Right, Right Left).  In the double
    rotations the child link is reassigned while [root.height] keeps the
    value just computed. *)
Definition insert_rebalance (d : Z) (l r : TreeNode) (data : Z)
  : option TreeNode :=
  let root := update_height d l r in
  let balance_factor := _get_balance root in
  c ← py_and (bool_decide (balance_factor > 1))
             (ld ← data_of l; Some (bool_decide (data < ld)));
  if c : bool then _right_rotate root else
  c ← py_and (bool_decide (balance_factor < -1))
             (rd ← data_of r; Some (bool_decide (data > rd)));
  if c : bool then _left_rotate root else
  c ← py_and (bool_decide (balance_factor > 1))
             (ld ← data_of l; Some (bool_decide (data > ld)));
  if c : bool then
    l' ← _left_rotate l;
    _right_rotate (Node d l' r (_get_height root))
  else
  c ← py_and (bool_decide (balance_factor < -1))
             (rd ← data_of r; Some (bool_decide (data < rd)));
  if c : bool then
    r' ← _right_rotate r;
    _left_rotate (Node d l r' (_get_height root))
  else Some root.

(** [AVLTree._insert_recursive] *)
Fixpoint _insert_recursive (root : TreeNode) (data : Z) : option TreeNode :=
  match root with
  | Empty => Some (new_node data)
  | Node d l r _ =>
      if bool_decide (data < d) then
        l' ← _insert_recursive l data;
        insert_rebalance d l' r data
      else
        r' ← _insert_recursive r data;
        insert_rebalance d l r' data
  end.

(** ** Deletion *)

(** [AVLTree._get_min_value_node], returning the node itself. *)
Fixpoint _get_min_value_node (root : TreeNode) : TreeNode :=
  match root with
  | Empty => Empty
  | Node _ Empty _ _ => root
  | Node _ l _ _ => _get_min_value_node l
  end.

(** The part of [_delete_recursive] after the structural removal: the height
    update and the four balance-factor driven rotation cases, in the
    source's order (Left Left, Left Right, Right Right, Right Left).
    [_get_balance] accepts [None], so the tests themselves never raise. *)
Definition delete_rebalance (d : Z) (l r : TreeNode) : option TreeNode :=
  let root := update_height d l r in
  let balance_factor := _get_balance root in
  if bool_decide (balance_factor > 1) && bool_decide (_get_balance l >= 0)
  then _right_rotate root
  else if bool_decide (balance_factor > 1) && bool_decide (_get_balance l < 0)
  then
    l' ← _left_rotate l;
    _right_rotate (Node d l' r (_get_height root))
  else if bool_decide (balance_factor < -1) && bool_decide (_get_balance r <= 0)
  then _left_rotate root
  else if bool_decide (balance_factor < -1) && bool_decide (_get_balance r > 0)
  then
    r' ← _right_rotate r;
    _left_rotate (Node d l r' (_get_height root))
  else Some root.

(** [AVLTree._delete_recursive] *)
Fixpoint _delete_recursive (root : TreeNode) (data : Z) : option TreeNode :=
  match root with
  | Empty => Some Empty
  | Node d l r _ =>
      if bool_decide (data < d) then
        l' ← _delete_recursive l data;
        delete_rebalance d l' r
      else if bool_decide (data > d) then
        r' ← _delete_recursive r data;
        delete_rebalance d l r'
      else
        match l, r with
        | Empty, _ => Some r
        | _, Empty => Some l
        | _, _ =>
            td ← data_of (_get_min_value_node r);
            r' ← _delete_recursive r td;
            delete_rebalance td l r'
        end
  end.

(** ** The [AVLTree] object and its public methods *)

(** [AVLTree]: the single attribute [root]. *)
Record AVLTree : Type := { root : TreeNode }.

(** [AVLTree.__init__] *)
Definition empty_tree : AVLTree := {| root := Empty |}.

(** [AVLTree.search]: returns the answer together with the object, which no
    statement of [search] or [_search_recursive] assigns to. *)
Definition search (self : AVLTree) (data : Z) : AVLTree * bool :=
  (self, _search_recursive (root self) data).

(** [AVLTree.insert] *)
Definition insert (self : AVLTree) (data : Z) : option AVLTree :=
  r ← _insert_recursive (root self) data; Some {| root := r |}.

(** [AVLTree.delete] *)
Definition delete (self : AVLTree) (data : Z) : option AVLTree :=
  r ← _delete_recursive (root self) data; Some {| root := r |}.

(** ** Level-order collection *)

(** [while len(levels) <= level: levels.append([])] *)
Definition extend_levels (level : nat) (levels : list (list TreeNode))
  : list (list TreeNode) :=
  levels ++ replicate (S level - length levels) [].

(** [AVLTree._collect_nodes_by_level]; [levels[level].append(node)] is the
    in-place update of entry [level]. *)
Fixpoint _collect_nodes_by_level (node : TreeNode) (level : nat)
    (levels : list (list TreeNode)) : list (list TreeNode) :=
  match node with
  | Empty => levels
  | Node _ l r _ =>
      let levels := extend_levels level levels in
      let levels := alter (λ lv, lv ++ [node]) level levels in
      let levels := _collect_nodes_by_level l (S level) levels in
      _collect_nodes_by_level r (S level) levels
  end.

(** [AVLTree.get_nodes_by_level]: the object is returned next to the result,
    as for [search]. *)
Definition get_nodes_by_level (self : AVLTree)
  : AVLTree * list (list TreeNode) :=
  match root self with
  | Empty => (self, [])
  | _ => (self, _collect_nodes_by_level (root self) 0 [])
  end.

(** The keys of a list of collected nodes, as a caller reads [node.data]. *)
Definition level_keys (lv : list TreeNode) : list Z := omap data_of lv.

(** ** Runs of public operations *)

Inductive op : Type :=
| OpSearch (k : Z)
| OpInsert (k : Z)
| OpDelete (k : Z)
| OpTraverse.

(** One call on the object; [None] when the call raises. *)
Definition step (self : AVLTree) (o : op) : option AVLTree :=
  match o with
  | OpSearch k => Some (search self k).1
  | OpInsert k => insert self k
  | OpDelete k => delete self k
  | OpTraverse => Some (get_nodes_by_level self).1
  end.

(** A sequence of calls, left to right, stopping at the first that raises. *)
Fixpoint run (ops : list op) (self : AVLTree) : option AVLTree :=
  match ops with
  | [] => Some self
  | o :: ops' => self' ← step self o; run ops' self'
  end.

(** Build a tree by successive [insert] calls. *)
Definition insert_all (ks : list Z) (self : AVLTree) : option AVLTree :=
  run (OpInsert <$> ks) self.

(** Successive [delete] calls. *)
Definition delete_all (ks : list Z) (self : AVLTree) : option AVLTree :=
  run (OpDelete <$> ks) self.

(** ** Specification vocabulary *)

(** In-order key sequence. *)
Fixpoint inorder (t : TreeNode) : list Z :=
  match t with
  | Empty => []
  | Node d l r _ => inorder l ++ d :: inorder r
  end.

(** The set of keys stored in a tree. *)
Fixpoint keys (t : TreeNode) : gset Z :=
  match t with
  | Empty => ∅
  | Node d l r _ => {[ d ]} ∪ keys l ∪ keys r
  end.

(** Number of nodes. *)
Fixpoint size (t : TreeNode) : nat :=
  match t with
  | Empty => 0%nat
  | Node _ l r _ => S (size l + size r)
  end.

(** The recursive height of the spec: [height(absent) = 0] and
    [1 + max(height(left), height(right))] otherwise.  It ignores the stored
    field. *)
Fixpoint tree_height (t : TreeNode) : Z :=
  match t with
  | Empty => 0
  | Node _ l r _ => 1 + Z.max (tree_height l) (tree_height r)
  end.

(** Every stored [height] field equals the recursive height. *)
Fixpoint heights_exact (t : TreeNode) : Prop :=
  match t with
  | Empty => True
  | Node _ l r h =>
      h = tree_height t ∧ heights_exact l ∧ heights_exact r
  end.

(** BST property: at every node, all keys on the left are smaller and all
    keys on the right are larger. *)
Fixpoint bst (t : TreeNode) : Prop :=
  match t with
  | Empty => True
  | Node d l r _ =>
      (∀ x, x ∈ keys l → x < d) ∧ (∀ x, x ∈ keys r → d < x) ∧ bst l ∧ bst r
  end.

(** The ordering that ordered descent relies on: as [bst], but equal keys
    are tolerated on either side. *)
Fixpoint ordered (t : TreeNode) : Prop :=
  match t with
  | Empty => True
  | Node d l r _ =>
      (∀ x, x ∈ keys l → x ≤ d) ∧ (∀ x, x ∈ keys r → d ≤ x) ∧
      ordered l ∧ ordered r
  end.

(** AVL balance property on recursive heights. *)
Fixpoint balanced (t : TreeNode) : Prop :=
  match t with
  | Empty => True
  | Node _ l r _ =>
      -1 ≤ tree_height l - tree_height r ≤ 1 ∧ balanced l ∧ balanced r
  end.

(** Every node's balance factor as the code computes it, [_get_balance],
    lies in [-1, 1]. *)
Fixpoint balance_factors_ok (t : TreeNode) : Prop :=
  match t with
  | Empty => True
  | Node _ l r _ =>
      -1 ≤ _get_balance t ≤ 1 ∧ balance_factors_ok l ∧ balance_factors_ok r
  end.

(** The three invariants together, stated on the stored heights the code
    reads. *)
Fixpoint avl_inv (t : TreeNode) : Prop :=
  match t with
  | Empty => True
  | Node d l r h =>
      h = 1 + Z.max (_get_height l) (_get_height r) ∧
      -1 ≤ _get_height l - _get_height r ≤ 1 ∧
      (∀ x, x ∈ keys l → x < d) ∧ (∀ x, x ∈ keys r → d < x) ∧
      avl_inv l ∧ avl_inv r
  end.

(** After an insertion of [k] that made a subtree taller, its root leans to
    the side [k] went to (or is the fresh leaf). *)
Definition leans_to (k : Z) (t : TreeNode) : Prop :=
  match t with
  | Empty => False
  | Node d l r _ =>
      (l = Empty ∧ r = Empty) ∨
      (k < d ∧ _get_height l = _get_height r + 1) ∨
      (d < k ∧ _get_height r = _get_height l + 1)
  end.

(** The nodes at a given depth, left to right. *)
Fixpoint nodes_at_depth (t : TreeNode) (n : nat) : list TreeNode :=
  match t with
  | Empty => []
  | Node _ l r _ =>
      match n with
      | O => [t]
      | S n' => nodes_at_depth l n' ++ nodes_at_depth r n'
      end
  end.

(** Number of levels of a tree. *)
Fixpoint depth (t : TreeNode) : nat :=
  match t with
  | Empty => 0%nat
  | Node _ l r _ => S (Nat.max (depth l) (depth r))
  end.

(** The entry of a list of levels at an index, empty when the list is
    shorter. *)
Definition level_at (i : nat) (levels : list (list TreeNode)) : list TreeNode :=
  default [] (levels !! i).

(** Which rotations a rebalancing step performed when it returned. *)
Inductive rebalanced (d : Z) (l r : TreeNode) (t' : TreeNode) : Prop :=
| RebNone : t' = update_height d l r → rebalanced d l r t'
| RebRight : _right_rotate (update_height d l r) = Some t' →
    rebalanced d l r t'
| RebLeft : _left_rotate (update_height d l r) = Some t' →
    rebalanced d l r t'
| RebLeftRight l' h : _left_rotate l = Some l' →
    _right_rotate (Node d l' r h) = Some t' → rebalanced d l r t'
| RebRightLeft r' h : _right_rotate r = Some r' →
    _left_rotate (Node d l r' h) = Some t' → rebalanced d l r t'.

(** ** Callers of the tree in [TreeVisualizer] *)

(** [AVLTree.contains], an alias of [search]. *)
Definition contains (self : AVLTree) (data : Z) : AVLTree * bool :=
  search self data.

(** What [TreeVisualizer.handle_input] does with [self.tree] once the entry
    has parsed as the integer [num]: a non-positive number closes the
    window; otherwise the number is deleted when [contains] finds it and
    inserted when not.  An exception of the tree operation is caught by the
    handler's [except Exception] and shown as an error. *)
Inductive input_outcome : Type :=
| WindowClosed
| TreeUpdated (tree : AVLTree)
| ErrorShown.

Definition handle_input (tree : AVLTree) (num : Z) : input_outcome :=
  if bool_decide (num <= 0) then WindowClosed
  else if (contains tree num).2 then
    match delete tree num with
    | Some tree' => TreeUpdated tree'
    | None => ErrorShown
    end
  else
    match insert tree num with
    | Some tree' => TreeUpdated tree'
    | None => ErrorShown
    end.

(** Successive entries, as long as the tree is updated. *)
Fixpoint handle_inputs (nums : list Z) (tree : AVLTree) : input_outcome :=
  match nums with
  | [] => TreeUpdated tree
  | num :: nums' =>
      match handle_input tree num with
      | TreeUpdated tree' => handle_inputs nums' tree'
      | o => o
      end
  end.

(** The statistics of [_show_operation_explanation]:
    [tree_height = len(levels)] and
    [node_count = sum(len(level) for level in levels)]. *)
Definition stats_tree_height (levels : list (list TreeNode)) : nat :=
  length levels.

Definition stats_node_count (levels : list (list TreeNode)) : nat :=
  sum_list_with length levels.

(** The key set after toggling the membership of each entry in turn. *)
Definition toggle (S : gset Z) (num : Z) : gset Z :=
  if decide (num ∈ S) then S ∖ {[ num ]} else {[ num ]} ∪ S.

(** * Verification *)

(** ** The invariant and insertion *)

(** * Proofs *)

(** ** Stored heights under the invariant *)

Lemma avl_inv_height_nonneg t : avl_inv t → 0 ≤ _get_height t.
Proof.
  induction t as [|d l IHl r IHr h]; simpl; [lia|].
  intros (-> & _ & _ & _ & Hl & Hr).
  specialize (IHl Hl). specialize (IHr Hr). lia.
Qed.

Lemma avl_inv_height_zero t : avl_inv t → _get_height t = 0 → t = Empty.
Proof.
  destruct t as [|d l r h]; simpl; [done|].
  intros (-> & _ & _ & _ & Hl & Hr) Hz.
  apply avl_inv_height_nonneg in Hl, Hr. lia.
Qed.

Lemma avl_inv_node_inv d l r h :
  avl_inv (Node d l r h) →
  h = 1 + Z.max (_get_height l) (_get_height r) ∧
  -1 ≤ _get_height l - _get_height r ≤ 1 ∧
  (∀ x, x ∈ keys l → x < d) ∧ (∀ x, x ∈ keys r → d < x) ∧
  avl_inv l ∧ avl_inv r ∧ 0 ≤ _get_height l ∧ 0 ≤ _get_height r.
Proof.
  simpl. intros (?&?&?&?&Hl&Hr).
  repeat split; auto using avl_inv_height_nonneg; lia.
Qed.

(** Break an invariant hypothesis on a node into its parts. *)
Ltac inv_node H :=
  let Hh := fresh "Hh" in let Hb := fresh "Hb" in
  let Hlt := fresh "Hlt" in let Hgt := fresh "Hgt" in
  let Hl := fresh "Hil" in let Hr := fresh "Hir" in
  let Hnl := fresh "Hnl" in let Hnr := fresh "Hnr" in
  apply avl_inv_node_inv in H as (Hh & Hb & Hlt & Hgt & Hl & Hr & Hnl & Hnr).

(** A tree of positive stored height is a node. *)
Lemma avl_inv_pos_node t :
  avl_inv t → 0 < _get_height t → ∃ d l r h, t = Node d l r h.
Proof. destruct t; simpl; [lia|eauto]. Qed.

(** ** Insertion preserves the invariant (absent key) *)

Ltac unfold_rebalance :=
  unfold insert_rebalance, delete_rebalance, py_and, update_height,
    _left_rotate, _right_rotate, data_of; simpl.

(** Quantification over the keys of a compound tree, piece by piece. *)
Lemma all_union (P : Z → Prop) (A B : gset Z) :
  (∀ x, x ∈ A ∪ B → P x) ↔ (∀ x, x ∈ A → P x) ∧ (∀ x, x ∈ B → P x).
Proof.
  split.
  - intros H; split; intros x Hx; apply H, elem_of_union; auto.
  - intros [HA HB] x [Hx|Hx]%elem_of_union; auto.
Qed.

Lemma all_singleton (P : Z → Prop) (d : Z) :
  (∀ x, x ∈ ({[ d ]} : gset Z) → P x) ↔ P d.
Proof.
  split.
  - intros H; apply H, elem_of_singleton; done.
  - intros H x ->%elem_of_singleton; done.
Qed.

Lemma all_empty (P : Z → Prop) : ∀ x, x ∈ (∅ : gset Z) → P x.
Proof. intros x Hx. by apply not_elem_of_empty in Hx. Qed.

Ltac split_all_hyps :=
  repeat match goal with
  | H : ∀ x, x ∈ _ ∪ _ → _ |- _ =>
      let H1 := fresh H in apply all_union in H as [H H1]
  | H : ∀ x, x ∈ {[ _ ]} → _ |- _ => apply all_singleton in H
  | H : ∀ x, x ∈ ∅ → _ |- _ => clear H
  end.

Ltac use_all_hyps x Hx :=
  repeat match goal with
  | H : ∀ y, y ∈ ?A → _, Hx' : x ∈ ?A |- _ =>
      pose proof (H x Hx'); clear H
  end.

Ltac bst_goal :=
  lazymatch goal with
  | |- ∀ x, x ∈ _ ∪ _ → _ => apply all_union; split; bst_goal
  | |- ∀ x, x ∈ {[ _ ]} → _ => apply all_singleton; lia
  | |- ∀ x, x ∈ ∅ → _ => apply all_empty
  | |- ∀ x, x ∈ _ → _ =>
      let x := fresh "x" in let Hx := fresh "Hx" in
      intros x Hx;
      repeat match goal with
      | H : ∀ y, y ∈ ?A → _ |- _ =>
          first [ pose proof (H x Hx) | idtac ]; clear H
      end;
      lia
  end.

(** Goals [∀ x, x ∈ keys ... → x < d] (or [d < x], [x ≤ d], ...). *)
Ltac bst_solver := simpl keys in *; split_all_hyps; bst_goal.

(** Equalities between key sets. *)
Ltac keys_eq :=
  simpl keys; apply set_eq; intros ?;
  rewrite ?elem_of_union, ?elem_of_singleton, ?elem_of_difference;
  tauto.

Lemma insert_rebalance_left d l r k :
  avl_inv l → avl_inv r →
  (∀ x, x ∈ keys l → x < d) → (∀ x, x ∈ keys r → d < x) →
  (-1 ≤ _get_height l - _get_height r ≤ 1 ∨
   (_get_height l - _get_height r = 2 ∧ leans_to k l)) →
  ∃ t', insert_rebalance d l r k = Some t' ∧ avl_inv t' ∧
        keys t' = {[ d ]} ∪ keys l ∪ keys r ∧
        ((-1 ≤ _get_height l - _get_height r ≤ 1 ∧ t' = update_height d l r) ∨
         (_get_height l - _get_height r = 2 ∧ _get_height t' = _get_height l)).
Proof.
  intros Hl Hr Hlt Hgt [Hbal|[Hbal Hlean]].
  - exists (update_height d l r). unfold_rebalance.
    repeat (case_bool_decide; try lia); simpl.
    repeat split; auto; try lia.
  - pose proof (avl_inv_height_nonneg _ Hr) as Hr0.
    destruct l as [|ld ll lr lh]; simpl in Hlean; [done|].
    inv_node Hl.
    destruct Hlean as [[-> ->]|[[Hk Hlean]|[Hk Hlean]]].
    + simpl in *. lia.
    + (* Left Left *)
      unfold_rebalance. simpl in *.
      repeat (case_bool_decide; try lia); simpl.
      eexists; split; [done|]. simpl.
      split; [|split; [keys_eq|right; lia]].
      repeat split; auto; try lia; try bst_solver.
    + (* Left Right *)
      destruct (avl_inv_pos_node lr) as (yd & yl & yr & yh & ->);
        [done|lia|].
      inv_node Hir.
      unfold_rebalance. simpl in *.
      repeat (case_bool_decide; try lia); simpl.
      eexists; split; [done|]. simpl.
      split; [|split; [keys_eq|right; lia]].
      repeat split; auto; try lia; try bst_solver.
Qed.

Lemma insert_rebalance_right d l r k :
  avl_inv l → avl_inv r →
  (∀ x, x ∈ keys l → x < d) → (∀ x, x ∈ keys r → d < x) →
  (-1 ≤ _get_height l - _get_height r ≤ 1 ∨
   (_get_height r - _get_height l = 2 ∧ leans_to k r)) →
  ∃ t', insert_rebalance d l r k = Some t' ∧ avl_inv t' ∧
        keys t' = {[ d ]} ∪ keys l ∪ keys r ∧
        ((-1 ≤ _get_height l - _get_height r ≤ 1 ∧ t' = update_height d l r) ∨
         (_get_height r - _get_height l = 2 ∧ _get_height t' = _get_height r)).
Proof.
  intros Hl Hr Hlt Hgt [Hbal|[Hbal Hlean]].
  - exists (update_height d l r). unfold_rebalance.
    repeat (case_bool_decide; try lia); simpl.
    repeat split; auto; try lia.
  - pose proof (avl_inv_height_nonneg _ Hl) as Hl0.
    destruct r as [|rd rl rr rh]; simpl in Hlean; [done|].
    inv_node Hr.
    destruct Hlean as [[-> ->]|[[Hk Hlean]|[Hk Hlean]]].
    + simpl in *. lia.
    + (* Right Left *)
      destruct (avl_inv_pos_node rl) as (yd & yl & yr & yh & ->);
        [done|lia|].
      inv_node Hil.
      unfold_rebalance. simpl in *.
      repeat (case_bool_decide; try lia); simpl.
      eexists; split; [done|]. simpl.
      split; [|split; [keys_eq|right; lia]].
      repeat split; auto; try lia; try bst_solver.
    + (* Right Right *)
      unfold_rebalance. simpl in *.
      repeat (case_bool_decide; try lia); simpl.
      eexists; split; [done|]. simpl.
      split; [|split; [keys_eq|right; lia]].
      repeat split; auto; try lia; try bst_solver.
Qed.

(** Insertion of an absent key: the call returns, the invariant is kept, the
    key set grows by [k], and the height grows by at most one. *)
Lemma insert_avl t k :
  avl_inv t → k ∉ keys t →
  ∃ t', _insert_recursive t k = Some t' ∧ avl_inv t' ∧
        keys t' = {[ k ]} ∪ keys t ∧
        (_get_height t' = _get_height t ∨
         (_get_height t' = _get_height t + 1 ∧ leans_to k t')).
Proof.
  induction t as [|d l IHl r IHr h]; intros Hinv Hk.
  - exists (new_node k). simpl.
    split; [done|]. split; [repeat split; try lia; apply all_empty|].
    split; [keys_eq|]. right. split; [lia|]. left; done.
  - inv_node Hinv. simpl in Hk.
    apply not_elem_of_union in Hk as [Hk Hkr].
    apply not_elem_of_union in Hk as [Hkd Hkl].
    apply not_elem_of_singleton in Hkd.
    simpl. case_bool_decide as Hc.
    + destruct (IHl Hil Hkl) as (l' & -> & Hl' & Hkeys & Hgrow). simpl.
      destruct (insert_rebalance_left d l' r k) as (t' & Ht' & Hit' & Hkt & Hcase);
        auto.
      { rewrite Hkeys. bst_solver. }
      { destruct Hgrow as [?|[? ?]]; [left; lia|].
        destruct (decide (_get_height l' - _get_height r = 2)); [right|left];
          auto; lia. }
      exists t'. split; [done|]. split; [done|]. split.
      { rewrite Hkt, Hkeys. keys_eq. }
      destruct Hcase as [[Hb' ->]|[Hb' Hh']]; simpl.
      * destruct Hgrow as [?|[? ?]]; [left; lia|].
        destruct (decide (_get_height l ≤ _get_height r - 1));
          [left; lia|right; split; [lia|right; left; lia]].
      * left. destruct Hgrow as [?|[? ?]]; lia.
    + assert (d < k) by lia.
      destruct (IHr Hir Hkr) as (r' & -> & Hr' & Hkeys & Hgrow). simpl.
      destruct (insert_rebalance_right d l r' k) as (t' & Ht' & Hit' & Hkt & Hcase);
        auto.
      { rewrite Hkeys. bst_solver. }
      { destruct Hgrow as [?|[? ?]]; [left; lia|].
        destruct (decide (_get_height r' - _get_height l = 2)); [right|left];
          auto; lia. }
      exists t'. split; [done|]. split; [done|]. split.
      { rewrite Hkt, Hkeys. keys_eq. }
      destruct Hcase as [[Hb' ->]|[Hb' Hh']]; simpl.
      * destruct Hgrow as [?|[? ?]]; [left; lia|].
        destruct (decide (_get_height r ≤ _get_height l - 1));
          [left; lia|right; split; [lia|right; right; lia]].
      * left. destruct Hgrow as [?|[? ?]]; lia.
Qed.

(** ** Deletion preserves the invariant *)

Lemma avl_inv_ordered t : avl_inv t → ordered t.
Proof.
  induction t as [|d l IHl r IHr h]; simpl; [done|].
  intros (_ & _ & Hlt & Hgt & Hl & Hr).
  repeat split; auto; intros x Hx; [apply Hlt in Hx|apply Hgt in Hx]; lia.
Qed.

(** Membership in the key set of a compound tree. *)
Ltac keys_in :=
  simpl keys in *; rewrite ?elem_of_union, ?elem_of_singleton in *;
  first [tauto | intuition auto].

(** The leftmost node of a non-empty ordered tree holds its least key. *)
Lemma min_value_spec t :
  t ≠ Empty → ordered t →
  ∃ m, data_of (_get_min_value_node t) = Some m ∧ m ∈ keys t ∧
       ∀ x, x ∈ keys t → m ≤ x.
Proof.
  induction t as [|d l IHl r IHr h]; intros Hne Hord; [done|].
  destruct Hord as (Hlt & Hgt & Hol & Hor).
  destruct l as [|ld ll lr lh].
  - exists d. simpl. split; [done|]. split; [keys_in|]. bst_solver.
  - destruct IHl as (m & Hm & Hin & Hle); [done|done|].
    exists m. split; [exact Hm|].
    split; [keys_in|].
    pose proof (Hlt m Hin) as Hmd.
    intros x Hx. simpl keys in Hx.
    apply elem_of_union in Hx as [Hx|Hx]; [|apply Hgt in Hx; lia].
    apply elem_of_union in Hx as [Hx|Hx]; [|by apply Hle].
    apply elem_of_singleton in Hx. lia.
Qed.

(** The tree a rotation case returned satisfies the invariant again. *)
Ltac rotation_result :=
  eexists; split; [done|]; simpl;
  split; [|split; [keys_eq|lia]];
  repeat split; auto; try lia; try bst_solver.

Lemma delete_rebalance_avl d l r :
  avl_inv l → avl_inv r →
  (∀ x, x ∈ keys l → x < d) → (∀ x, x ∈ keys r → d < x) →
  -2 ≤ _get_height l - _get_height r ≤ 2 →
  ∃ t', delete_rebalance d l r = Some t' ∧ avl_inv t' ∧
        keys t' = {[ d ]} ∪ keys l ∪ keys r ∧
        (_get_height t' = 1 + Z.max (_get_height l) (_get_height r) ∨
         (_get_height t' = Z.max (_get_height l) (_get_height r) ∧
          ¬ -1 ≤ _get_height l - _get_height r ≤ 1)).
Proof.
  intros Hl Hr Hlt Hgt Hbal.
  pose proof (avl_inv_height_nonneg _ Hl) as Hl0.
  pose proof (avl_inv_height_nonneg _ Hr) as Hr0.
  destruct (decide (_get_height l - _get_height r = 2)) as [H2|Hn2];
    [|destruct (decide (_get_height l - _get_height r = -2)) as [Hm2|Hnm2]].
  - destruct (avl_inv_pos_node l) as (ld & ll & lr & lh & ->); [done|lia|].
    inv_node Hl.
    destruct (decide (_get_height ll - _get_height lr >= 0)) as [Hge|Hlt'].
    + unfold_rebalance; simpl in *;
        repeat (case_bool_decide; try lia); simpl; rotation_result.
    + destruct (avl_inv_pos_node lr) as (yd & yl & yr & yh & ->);
        [done|lia|].
      inv_node Hir.
      unfold_rebalance; simpl in *;
        repeat (case_bool_decide; try lia); simpl; rotation_result.
  - destruct (avl_inv_pos_node r) as (rd & rl & rr & rh & ->); [done|lia|].
    inv_node Hr.
    destruct (decide (_get_height rl - _get_height rr <= 0)) as [Hle|Hgt'].
    + unfold_rebalance; simpl in *;
        repeat (case_bool_decide; try lia); simpl; rotation_result.
    + destruct (avl_inv_pos_node rl) as (yd & yl & yr & yh & ->);
        [done|lia|].
      inv_node Hil.
      unfold_rebalance; simpl in *;
        repeat (case_bool_decide; try lia); simpl; rotation_result.
  - exists (update_height d l r). unfold_rebalance.
    repeat (case_bool_decide; try lia); simpl;
      repeat split; auto; try lia.
Qed.

(** Element-wise comparison of key sets, with the ordering facts at hand. *)
Ltac keys_eq_with Hlt Hgt :=
  apply set_eq; intros ?x;
  match goal with
  | x : Z |- _ ↔ _ => pose proof (Hlt x); pose proof (Hgt x)
  end;
  repeat first
    [ rewrite elem_of_union in * | rewrite elem_of_difference in *
    | rewrite elem_of_singleton in * | rewrite elem_of_empty in * ];
  intuition (try lia).

(** *** Unfolding equations of [_delete_recursive] *)

Lemma delete_lt d l r h k :
  k < d →
  _delete_recursive (Node d l r h) k =
    l' ← _delete_recursive l k; delete_rebalance d l' r.
Proof. intros. simpl. by rewrite bool_decide_eq_true_2. Qed.

Lemma delete_gt d l r h k :
  d < k →
  _delete_recursive (Node d l r h) k =
    r' ← _delete_recursive r k; delete_rebalance d l r'.
Proof.
  intros. simpl.
  rewrite bool_decide_eq_false_2 by lia.
  by rewrite bool_decide_eq_true_2 by lia.
Qed.

Lemma delete_no_left d r h : _delete_recursive (Node d Empty r h) d = Some r.
Proof. simpl. by rewrite !bool_decide_eq_false_2 by lia. Qed.

Lemma delete_no_right d l h :
  l ≠ Empty → _delete_recursive (Node d l Empty h) d = Some l.
Proof.
  intros. simpl. rewrite !bool_decide_eq_false_2 by lia. by destruct l.
Qed.

Lemma delete_two_children d l r h :
  l ≠ Empty → r ≠ Empty →
  _delete_recursive (Node d l r h) d =
    td ← data_of (_get_min_value_node r);
    r' ← _delete_recursive r td;
    delete_rebalance td l r'.
Proof.
  intros. simpl. rewrite !bool_decide_eq_false_2 by lia.
  by destruct l, r.
Qed.

Lemma tree_empty_or_not (t : TreeNode) : t = Empty ∨ t ≠ Empty.
Proof. destruct t; [by left|by right]. Qed.

(** Deletion: the call returns, the invariant is kept, the key is gone and
    the height shrinks by at most one. *)
Lemma delete_avl t : ∀ k,
  avl_inv t →
  ∃ t', _delete_recursive t k = Some t' ∧ avl_inv t' ∧
        keys t' = keys t ∖ {[ k ]} ∧
        (_get_height t' = _get_height t ∨
         _get_height t' = _get_height t - 1).
Proof.
  induction t as [|d l IHl r IHr h]; intros k Hinv.
  - exists Empty. simpl. repeat split; auto.
    apply set_eq; intros x.
    rewrite elem_of_difference, elem_of_empty. tauto.
  - inv_node Hinv.
    destruct (Z.lt_trichotomy k d) as [Hc|[->|Hc]].
    + rewrite delete_lt by done.
      destruct (IHl k Hil) as (l' & -> & Hl' & Hkeys & Hshrink). simpl.
      destruct (delete_rebalance_avl d l' r)
        as (t' & Ht' & Hit' & Hkt & Hcase); auto.
      { rewrite Hkeys. intros x [Hx _]%elem_of_difference. auto. }
      { lia. }
      exists t'. split; [done|]. split; [done|]. split.
      { rewrite Hkt, Hkeys. simpl keys. keys_eq_with Hlt Hgt. }
      simpl. lia.
    + destruct (tree_empty_or_not l) as [->|Hnel].
      { rewrite delete_no_left.
        exists r. split; [done|]. split; [done|]. split.
        - simpl keys. keys_eq_with Hlt Hgt.
        - simpl in *. lia. }
      destruct (tree_empty_or_not r) as [->|Hner].
      { rewrite delete_no_right by done.
        exists l. split; [done|]. split; [done|]. split.
        - simpl keys in *. keys_eq_with Hlt Hgt.
        - simpl in *. lia. }
      rewrite delete_two_children by done.
      destruct (min_value_spec r)
        as (m & Hm & Hmin & Hmle); [done|by apply avl_inv_ordered|].
      rewrite Hm. simpl mbind.
      destruct (IHr m Hir) as (r' & Hr'eq & Hr' & Hkeys & Hshrink).
      rewrite Hr'eq. simpl mbind.
      pose proof (Hgt m Hmin) as Hdm.
      destruct (delete_rebalance_avl m l r')
        as (t' & Ht' & Hit' & Hkt & Hcase); auto.
      { intros x Hx. apply Hlt in Hx. lia. }
      { rewrite Hkeys. intros x [Hx Hne]%elem_of_difference.
        apply Hmle in Hx. apply not_elem_of_singleton in Hne. lia. }
      { lia. }
      exists t'. split; [done|]. split; [done|]. split.
      { rewrite Hkt, Hkeys. simpl keys. apply set_eq; intros x.
        pose proof (Hlt x). pose proof (Hgt x). pose proof (Hmle x).
        repeat first
          [ rewrite elem_of_union in * | rewrite elem_of_difference in *
          | rewrite elem_of_singleton in * ].
        destruct (decide (x = m)) as [->|Hxm]; intuition (try lia). }
      simpl _get_height in *. lia.
    + rewrite delete_gt by done.
      destruct (IHr k Hir) as (r' & -> & Hr' & Hkeys & Hshrink). simpl.
      destruct (delete_rebalance_avl d l r')
        as (t' & Ht' & Hit' & Hkt & Hcase); auto.
      { rewrite Hkeys. intros x [Hx _]%elem_of_difference. auto. }
      { lia. }
      exists t'. split; [done|]. split; [done|]. split.
      { rewrite Hkt, Hkeys. simpl keys. keys_eq_with Hlt Hgt. }
      simpl. lia.
Qed.

(** ** Runs *)

Lemma run_app a b t : run (a ++ b) t = t' ← run a t; run b t'.
Proof.
  revert t; induction a as [|o a IH]; intros t; simpl; [done|].
  destruct (step t o); simpl; [apply IH|done].
Qed.

Lemma run_snoc a o t : run (a ++ [o]) t = t' ← run a t; step t' o.
Proof.
  rewrite run_app. destruct (run a t) as [t'|]; simpl; [|done].
  by destruct (step t' o).
Qed.

(** ** From the combined invariant to the three properties of the data model *)

Lemma avl_inv_heights t :
  avl_inv t → heights_exact t ∧ _get_height t = tree_height t.
Proof.
  induction t as [|d l IHl r IHr h]; simpl; [done|].
  intros (Hh & _ & _ & _ & Hl & Hr).
  destruct (IHl Hl) as (? & El), (IHr Hr) as (? & Er).
  rewrite <- El, <- Er. done.
Qed.

Lemma avl_inv_bst t : avl_inv t → bst t.
Proof.
  induction t as [|d l IHl r IHr h]; simpl; [done|].
  intros (_ & _ & ? & ? & ? & ?). auto.
Qed.

Lemma avl_inv_balance_factors t : avl_inv t → balance_factors_ok t.
Proof.
  induction t as [|d l IHl r IHr h]; simpl; [done|].
  intros (_ & ? & _ & _ & ? & ?). auto.
Qed.

Lemma avl_inv_balanced t : avl_inv t → balanced t.
Proof.
  induction t as [|d l IHl r IHr h]; simpl; [done|].
  intros (_ & ? & _ & _ & Hl & Hr).
  destruct (avl_inv_heights l Hl) as (_ & <-).
  destruct (avl_inv_heights r Hr) as (_ & <-). auto.
Qed.

Lemma keys_empty_inv t : keys t = ∅ → t = Empty.
Proof.
  destruct t as [|d l r h]; [done|]. intros H.
  assert (d ∈ keys (Node d l r h)) as Hd by keys_in.
  rewrite H in Hd. by apply elem_of_empty in Hd.
Qed.

(** Comparison of key sets built from unions, differences and singletons. *)
Ltac set_tauto :=
  apply set_eq; intros ?;
  repeat first
    [ rewrite elem_of_union | rewrite elem_of_difference
    | rewrite elem_of_singleton | rewrite elem_of_empty ];
  tauto.

(** ** Sequences of insertions and of deletions *)

Lemma insert_all_avl ks : ∀ t,
  NoDup ks → avl_inv (root t) → (∀ k, k ∈ ks → k ∉ keys (root t)) →
  ∃ t', insert_all ks t = Some t' ∧ avl_inv (root t') ∧
        keys (root t') = list_to_set ks ∪ keys (root t).
Proof.
  induction ks as [|k ks IH]; intros t Hnd Hinv Hfresh.
  - exists t. split; [done|]. split; [done|]. simpl. set_tauto.
  - apply NoDup_cons in Hnd as [Hk Hnd].
    destruct (insert_avl (root t) k) as (t1 & Hins & Hinv1 & Hkeys1 & _);
      [done|apply Hfresh; left|].
    destruct (IH {| root := t1 |}) as (t' & Hrun & Hinv' & Hkeys');
      [done|done| |].
    { intros x Hx. simpl. rewrite Hkeys1.
      intros [->%elem_of_singleton|Hin]%elem_of_union; [done|].
      by apply (Hfresh x); [right|]. }
    exists t'. split; [|split; [done|]].
    + unfold insert_all in *. simpl. unfold insert. rewrite Hins. simpl.
      exact Hrun.
    + rewrite Hkeys'. simpl. rewrite Hkeys1. set_tauto.
Qed.

Lemma delete_all_avl ks : ∀ t,
  avl_inv (root t) →
  ∃ t', delete_all ks t = Some t' ∧ avl_inv (root t') ∧
        keys (root t') = keys (root t) ∖ list_to_set ks.
Proof.
  induction ks as [|k ks IH]; intros t Hinv.
  - exists t. split; [done|]. split; [done|]. simpl. set_tauto.
  - destruct (delete_avl (root t) k) as (t1 & Hdel & Hinv1 & Hkeys1 & _);
      [done|].
    destruct (IH {| root := t1 |}) as (t' & Hrun & Hinv' & Hkeys'); [done|].
    exists t'. split; [|split; [done|]].
    + unfold delete_all in *. simpl. unfold delete. rewrite Hdel. simpl.
      exact Hrun.
    + rewrite Hkeys'. simpl. rewrite Hkeys1. set_tauto.
Qed.

(** ** Outcomes of the rebalancing steps *)

Lemma insert_rebalance_cases d l r k t' :
  insert_rebalance d l r k = Some t' → rebalanced d l r t'.
Proof.
  unfold insert_rebalance, py_and. intros H.
  repeat match type of H with
  | context [bool_decide ?P] => destruct (bool_decide P)
  end;
  destruct (data_of l), (data_of r); simpl in H;
  repeat match type of H with
  | context [bool_decide ?P] => destruct (bool_decide P); simpl in H
  end; try discriminate.
  all: try (by apply RebRight); try (by apply RebLeft);
    try (by apply RebNone; injection H).
  all: try (destruct (_left_rotate l) as [l'|] eqn:El; simpl in H;
            [exact (RebLeftRight _ _ _ _ l' 0 El H)|discriminate]).
  all: try (destruct (_right_rotate r) as [r'|] eqn:Er; simpl in H;
            [exact (RebRightLeft _ _ _ _ r' 0 Er H)|discriminate]).
Qed.

Lemma delete_rebalance_cases d l r t' :
  delete_rebalance d l r = Some t' → rebalanced d l r t'.
Proof.
  unfold delete_rebalance. intros H.
  repeat match type of H with
  | context [bool_decide ?P] => destruct (bool_decide P); simpl in H
  end.
  all: try (by apply RebRight); try (by apply RebLeft);
    try (by apply RebNone; injection H).
  all: try (destruct (_left_rotate l) as [l'|] eqn:El; simpl in H;
            [exact (RebLeftRight _ _ _ _ l' 0 El H)|discriminate]).
  all: try (destruct (_right_rotate r) as [r'|] eqn:Er; simpl in H;
            [exact (RebRightLeft _ _ _ _ r' 0 Er H)|discriminate]).
Qed.

(** ** Stored heights stay exact *)

Lemma heights_exact_get t : heights_exact t → _get_height t = tree_height t.
Proof. destruct t; simpl; [done|]. by intros (-> & _). Qed.

Lemma heights_exact_update d l r :
  heights_exact l → heights_exact r → heights_exact (update_height d l r).
Proof.
  intros Hl Hr. simpl.
  by rewrite (heights_exact_get l), (heights_exact_get r).
Qed.

Lemma left_rotate_heights d l r h t' :
  heights_exact l → heights_exact r →
  _left_rotate (Node d l r h) = Some t' → heights_exact t'.
Proof.
  intros Hl Hr Hrot. destruct r as [|yd T2 yr yh]; [done|].
  destruct Hr as (_ & HT2 & Hyr). injection Hrot as <-.
  apply heights_exact_update; [by apply heights_exact_update|done].
Qed.

Lemma right_rotate_heights d l r h t' :
  heights_exact l → heights_exact r →
  _right_rotate (Node d l r h) = Some t' → heights_exact t'.
Proof.
  intros Hl Hr Hrot. destruct l as [|yd yl T3 yh]; [done|].
  destruct Hl as (_ & Hyl & HT3). injection Hrot as <-.
  apply heights_exact_update; [done|by apply heights_exact_update].
Qed.

Lemma rebalanced_heights d l r t' :
  heights_exact l → heights_exact r → rebalanced d l r t' →
  heights_exact t'.
Proof.
  intros Hl Hr [->|H|H|l' h Hl' H|r' h Hr' H].
  - by apply heights_exact_update.
  - exact (right_rotate_heights _ _ _ _ _ Hl Hr H).
  - exact (left_rotate_heights _ _ _ _ _ Hl Hr H).
  - destruct l as [|ld ll lr lh]; [done|]. destruct Hl as (_ & Hll & Hlr).
    eapply right_rotate_heights; [|exact Hr|exact H].
    exact (left_rotate_heights _ _ _ _ _ Hll Hlr Hl').
  - destruct r as [|rd rl rr rh]; [done|]. destruct Hr as (_ & Hrl & Hrr).
    eapply left_rotate_heights; [exact Hl| |exact H].
    exact (right_rotate_heights _ _ _ _ _ Hrl Hrr Hr').
Qed.

Lemma insert_heights t : ∀ k t',
  heights_exact t → _insert_recursive t k = Some t' → heights_exact t'.
Proof.
  induction t as [|d l IHl r IHr h]; intros k t' Hex Hins; simpl in Hins.
  - injection Hins as <-. done.
  - destruct Hex as (_ & Hl & Hr). case_bool_decide.
    + destruct (_insert_recursive l k) as [l'|] eqn:El; [|done].
      simpl in Hins. apply insert_rebalance_cases in Hins.
      eapply rebalanced_heights; [|exact Hr|exact Hins]. by eapply IHl.
    + destruct (_insert_recursive r k) as [r'|] eqn:Er; [|done].
      simpl in Hins. apply insert_rebalance_cases in Hins.
      eapply rebalanced_heights; [exact Hl| |exact Hins]. by eapply IHr.
Qed.

Lemma delete_heights t : ∀ k t',
  heights_exact t → _delete_recursive t k = Some t' → heights_exact t'.
Proof.
  induction t as [|d l IHl r IHr h]; intros k t' Hex Hdel.
  - injection Hdel as <-. done.
  - destruct Hex as (_ & Hl & Hr).
    destruct (Z.lt_trichotomy k d) as [Hc|[->|Hc]].
    + rewrite delete_lt in Hdel by done.
      destruct (_delete_recursive l k) as [l'|] eqn:El; [|done].
      simpl in Hdel. apply delete_rebalance_cases in Hdel.
      eapply rebalanced_heights; [|exact Hr|exact Hdel]. by eapply IHl.
    + destruct (tree_empty_or_not l) as [->|Hnel].
      { rewrite delete_no_left in Hdel. by injection Hdel as <-. }
      destruct (tree_empty_or_not r) as [->|Hner].
      { rewrite delete_no_right in Hdel by done. by injection Hdel as <-. }
      rewrite delete_two_children in Hdel by done.
      destruct (data_of (_get_min_value_node r)) as [m|]; [|done].
      simpl in Hdel.
      destruct (_delete_recursive r m) as [r'|] eqn:Er; [|done].
      simpl in Hdel. apply delete_rebalance_cases in Hdel.
      eapply rebalanced_heights; [exact Hl| |exact Hdel]. by eapply IHr.
    + rewrite delete_gt in Hdel by done.
      destruct (_delete_recursive r k) as [r'|] eqn:Er; [|done].
      simpl in Hdel. apply delete_rebalance_cases in Hdel.
      eapply rebalanced_heights; [exact Hl| |exact Hdel]. by eapply IHr.
Qed.

Lemma get_nodes_by_level_self t : (get_nodes_by_level t).1 = t.
Proof. unfold get_nodes_by_level. by destruct (root t). Qed.

Lemma step_heights t o t' :
  heights_exact (root t) → step t o = Some t' → heights_exact (root t').
Proof.
  intros Hex Hstep. destruct o as [k|k|k|]; simpl in Hstep.
  - by injection Hstep as <-.
  - unfold insert in Hstep.
    destruct (_insert_recursive (root t) k) as [r|] eqn:E; [|done].
    injection Hstep as <-. by eapply insert_heights.
  - unfold delete in Hstep.
    destruct (_delete_recursive (root t) k) as [r|] eqn:E; [|done].
    injection Hstep as <-. by eapply delete_heights.
  - injection Hstep as <-. by rewrite get_nodes_by_level_self.
Qed.

Lemma run_heights ops : ∀ t t',
  heights_exact (root t) → run ops t = Some t' → heights_exact (root t').
Proof.
  induction ops as [|o ops IH]; intros t t' Hex Hrun; simpl in Hrun.
  - by injection Hrun as <-.
  - destruct (step t o) as [t1|] eqn:E; [|done]. simpl in Hrun.
    eapply IH; [|done]. by eapply step_heights.
Qed.

(** ** The weak ordering is kept by every operation that returns *)

Lemma left_rotate_ordered z t' :
  _left_rotate z = Some t' → ordered z → ordered t' ∧ keys t' = keys z.
Proof.
  destruct z as [|zd zl [|yd T2 yr yh] zh]; try done.
  intros Hrot Hord. injection Hrot as <-. simpl in Hord.
  destruct Hord as (Hlt & Hgt & Hzl & (Hylt & Hygt & HT2 & Hyr)).
  split; [|keys_eq]. simpl. repeat split; auto; bst_solver.
Qed.

Lemma right_rotate_ordered z t' :
  _right_rotate z = Some t' → ordered z → ordered t' ∧ keys t' = keys z.
Proof.
  destruct z as [|zd [|yd yl T3 yh] zr zh]; try done.
  intros Hrot Hord. injection Hrot as <-. simpl in Hord.
  destruct Hord as (Hlt & Hgt & (Hylt & Hygt & Hyl & HT3) & Hzr).
  split; [|keys_eq]. simpl. repeat split; auto; bst_solver.
Qed.

Lemma rebalanced_ordered d l r t' :
  rebalanced d l r t' → ordered l → ordered r →
  (∀ x, x ∈ keys l → x ≤ d) → (∀ x, x ∈ keys r → d ≤ x) →
  ordered t' ∧ keys t' = {[ d ]} ∪ keys l ∪ keys r.
Proof.
  intros Hreb Hl Hr Hlt Hgt.
  destruct Hreb as [->|H|H|l' h Hl' H|r' h Hr' H].
  - done.
  - by apply right_rotate_ordered in H.
  - by apply left_rotate_ordered in H.
  - apply left_rotate_ordered in Hl' as (Hol' & Hkl'); [|done].
    apply right_rotate_ordered in H as (Ho & Hk).
    + split; [done|]. rewrite Hk. simpl. by rewrite Hkl'.
    + simpl. rewrite Hkl'. done.
  - apply right_rotate_ordered in Hr' as (Hor' & Hkr'); [|done].
    apply left_rotate_ordered in H as (Ho & Hk).
    + split; [done|]. rewrite Hk. simpl. by rewrite Hkr'.
    + simpl. rewrite Hkr'. done.
Qed.

Lemma insert_ordered t : ∀ k t',
  ordered t → _insert_recursive t k = Some t' →
  ordered t' ∧ keys t' = {[ k ]} ∪ keys t.
Proof.
  induction t as [|d l IHl r IHr h]; intros k t' Hord Hins; simpl in Hins.
  - injection Hins as <-. split; [|keys_eq]. simpl.
    repeat split; auto; apply all_empty.
  - destruct Hord as (Hlt & Hgt & Hl & Hr). case_bool_decide.
    + destruct (_insert_recursive l k) as [l'|] eqn:El; [|done].
      simpl in Hins. apply insert_rebalance_cases in Hins.
      destruct (IHl _ _ Hl El) as (Hl' & Hkl').
      apply rebalanced_ordered in Hins as (Ho & Hk); [|done..| |done].
      * split; [done|]. rewrite Hk, Hkl'. keys_eq.
      * rewrite Hkl'. bst_solver.
    + destruct (_insert_recursive r k) as [r'|] eqn:Er; [|done].
      simpl in Hins. apply insert_rebalance_cases in Hins.
      destruct (IHr _ _ Hr Er) as (Hr' & Hkr').
      apply rebalanced_ordered in Hins as (Ho & Hk); [|done..|].
      * split; [done|]. rewrite Hk, Hkr'. keys_eq.
      * rewrite Hkr'. bst_solver.
Qed.

Lemma delete_ordered t : ∀ k t',
  ordered t → _delete_recursive t k = Some t' →
  ordered t' ∧ ∀ x, x ∈ keys t' → x ∈ keys t.
Proof.
  induction t as [|d l IHl r IHr h]; intros k t' Hord Hdel.
  - injection Hdel as <-. done.
  - destruct Hord as (Hlt & Hgt & Hl & Hr).
    destruct (Z.lt_trichotomy k d) as [Hc|[->|Hc]].
    + rewrite delete_lt in Hdel by done.
      destruct (_delete_recursive l k) as [l'|] eqn:El; [|done].
      simpl in Hdel. apply delete_rebalance_cases in Hdel.
      destruct (IHl _ _ Hl El) as (Hl' & Hkl').
      apply rebalanced_ordered in Hdel as (Ho & Hk); [|done..| |done].
      * split; [done|]. rewrite Hk. intros x Hx. keys_in.
      * intros x Hx. auto.
    + destruct (tree_empty_or_not l) as [->|Hnel].
      { rewrite delete_no_left in Hdel. injection Hdel as <-.
        split; [done|]. intros x Hx. keys_in. }
      destruct (tree_empty_or_not r) as [->|Hner].
      { rewrite delete_no_right in Hdel by done. injection Hdel as <-.
        split; [done|]. intros x Hx. keys_in. }
      rewrite delete_two_children in Hdel by done.
      destruct (min_value_spec r) as (m & Hm & Hmin & Hmle); [done..|].
      rewrite Hm in Hdel. simpl in Hdel.
      destruct (_delete_recursive r m) as [r'|] eqn:Er; [|done].
      simpl in Hdel. apply delete_rebalance_cases in Hdel.
      destruct (IHr _ _ Hr Er) as (Hr' & Hkr').
      pose proof (Hgt m Hmin) as Hdm.
      apply rebalanced_ordered in Hdel as (Ho & Hk); [|done..| |].
      * split; [done|]. rewrite Hk. intros x Hx. simpl keys.
        rewrite !elem_of_union, elem_of_singleton in Hx.
        rewrite !elem_of_union.
        destruct Hx as [[->|Hx]|Hx]; auto.
      * intros x Hx. apply Hlt in Hx. lia.
      * intros x Hx. auto.
    + rewrite delete_gt in Hdel by done.
      destruct (_delete_recursive r k) as [r'|] eqn:Er; [|done].
      simpl in Hdel. apply delete_rebalance_cases in Hdel.
      destruct (IHr _ _ Hr Er) as (Hr' & Hkr').
      apply rebalanced_ordered in Hdel as (Ho & Hk); [|done..|].
      * split; [done|]. rewrite Hk. intros x Hx. keys_in.
      * intros x Hx. auto.
Qed.

Lemma step_ordered t o t' :
  ordered (root t) → step t o = Some t' → ordered (root t').
Proof.
  intros Hord Hstep. destruct o as [k|k|k|]; simpl in Hstep.
  - by injection Hstep as <-.
  - unfold insert in Hstep.
    destruct (_insert_recursive (root t) k) as [r|] eqn:E; [|done].
    injection Hstep as <-. by eapply insert_ordered.
  - unfold delete in Hstep.
    destruct (_delete_recursive (root t) k) as [r|] eqn:E; [|done].
    injection Hstep as <-. by eapply delete_ordered.
  - injection Hstep as <-. by rewrite get_nodes_by_level_self.
Qed.

Lemma run_ordered ops : ∀ t t',
  ordered (root t) → run ops t = Some t' → ordered (root t').
Proof.
  induction ops as [|o ops IH]; intros t t' Hord Hrun; simpl in Hrun.
  - by injection Hrun as <-.
  - destruct (step t o) as [t1|] eqn:E; [|done]. simpl in Hrun.
    eapply IH; [|done]. by eapply step_ordered.
Qed.

(** ** Search *)

Lemma search_ordered t k :
  ordered t → _search_recursive t k = true ↔ k ∈ keys t.
Proof.
  induction t as [|d l IHl r IHr h]; simpl.
  - intros _. split; [done|]. intros H. by apply elem_of_empty in H.
  - intros (Hlt & Hgt & Hl & Hr).
    pose proof (Hlt k) as Hkl. pose proof (Hgt k) as Hkr.
    rewrite !elem_of_union, elem_of_singleton.
    repeat case_bool_decide.
    + split; [intros _; left; left; lia|done].
    + rewrite (IHl Hl). intuition lia.
    + rewrite (IHr Hr). intuition lia.
Qed.

(** ** Level-order collection *)

Lemma extend_levels_length level acc :
  length (extend_levels level acc) = Nat.max (length acc) (S level).
Proof. unfold extend_levels. rewrite length_app, length_replicate. lia. Qed.

Lemma extend_levels_at i level acc :
  level_at i (extend_levels level acc) = level_at i acc.
Proof.
  unfold level_at, extend_levels.
  destruct (decide (i < length acc)%nat) as [Hlt|Hge].
  - by rewrite lookup_app_l.
  - rewrite lookup_app_r by lia. rewrite (lookup_ge_None_2 acc) by lia.
    simpl. destruct (replicate _ _ !! _) as [x|] eqn:E; [|done].
    by apply lookup_replicate in E as [-> _].
Qed.

Lemma alter_level_at (f : list TreeNode → list TreeNode) i level acc :
  (level < length acc)%nat →
  level_at i (alter f level acc) =
    if decide (i = level) then f (level_at i acc) else level_at i acc.
Proof.
  intros Hlt. unfold level_at. destruct (decide (i = level)) as [->|Hne].
  - rewrite list_lookup_alter_eq.
    destruct (lookup_lt_is_Some_2 acc level Hlt) as [x ->]. done.
  - by rewrite list_lookup_alter_ne.
Qed.

Lemma collect_spec t : ∀ level acc,
  (level ≤ length acc)%nat →
  length (_collect_nodes_by_level t level acc)
    = Nat.max (length acc) (level + depth t) ∧
  ∀ i, level_at i (_collect_nodes_by_level t level acc) =
       level_at i acc ++
       (if decide (level ≤ i)%nat then nodes_at_depth t (i - level) else []).
Proof.
  induction t as [|d l IHl r IHr h]; intros level acc Hlevel.
  - simpl. split; [lia|]. intros i. destruct (decide _); simpl; by rewrite ?app_nil_r.
  - cbn [_collect_nodes_by_level].
    set (node := Node d l r h).
    set (acc1 := extend_levels level acc).
    set (acc2 := alter (λ lv, lv ++ [node]) level acc1).
    assert (length acc1 = Nat.max (length acc) (S level)) as Hlen1
      by apply extend_levels_length.
    assert (length acc2 = length acc1) as Hlen2 by apply length_alter.
    destruct (IHl (S level) acc2) as (Hlen3 & Hat3); [lia|].
    destruct (IHr (S level) (_collect_nodes_by_level l (S level) acc2))
      as (Hlen & Hat); [lia|].
    split; [simpl depth; lia|].
    intros i. rewrite Hat, Hat3. subst acc2.
    rewrite alter_level_at by lia. subst acc1.
    rewrite extend_levels_at.
    repeat case_decide; try lia; rewrite ?app_nil_r.
    + subst i. by rewrite Nat.sub_diag.
    + replace (i - level)%nat with (S (i - S level)) by lia.
      simpl. by rewrite app_assoc.
    + done.
Qed.

(** Collection from the root, into the empty list of levels. *)
Lemma collect_levels t :
  _collect_nodes_by_level t 0 [] = nodes_at_depth t <$> seq 0 (depth t).
Proof.
  destruct (collect_spec t 0 []) as (Hlen & Hat); [cbn [length]; lia|].
  assert (length (_collect_nodes_by_level t 0 []) = depth t) as Hlen'
    by (rewrite Hlen; cbn [length]; lia).
  apply list_eq. intros i.
  rewrite list_lookup_fmap.
  destruct (decide (i < depth t)%nat) as [Hlt|Hge].
  - rewrite lookup_seq_lt by done.
    destruct (lookup_lt_is_Some_2 (_collect_nodes_by_level t 0 []) i)
      as [x Hx]; [lia|].
    pose proof (Hat i) as Hi. unfold level_at in Hi.
    rewrite Hx, lookup_nil, decide_True, Nat.sub_0_r in Hi by lia.
    simpl in Hi. rewrite Hx, Hi. done.
  - rewrite lookup_seq_ge by lia.
    apply lookup_ge_None_2. lia.
Qed.

(** The list of levels that [get_nodes_by_level] returns. *)
Lemma levels_spec (self : AVLTree) :
  (get_nodes_by_level self).2 =
    nodes_at_depth (root self) <$> seq 0 (depth (root self)).
Proof.
  unfold get_nodes_by_level. rewrite <- collect_levels.
  by destruct (root self).
Qed.

(** The keys found at a depth are keys of the tree. *)
Lemma level_keys_in t : ∀ n x,
  x ∈ level_keys (nodes_at_depth t n) → x ∈ keys t.
Proof.
  induction t as [|d l IHl r IHr h]; intros n x Hx.
  - by apply elem_of_nil in Hx.
  - destruct n as [|n]; simpl in Hx.
    + apply list_elem_of_singleton in Hx as ->. keys_in.
    + unfold level_keys in Hx. rewrite omap_app in Hx.
      apply elem_of_app in Hx as [Hx|Hx];
        [apply IHl in Hx|apply IHr in Hx]; keys_in.
Qed.

Lemma level_keys_sorted t : ∀ n,
  bst t → StronglySorted Z.lt (level_keys (nodes_at_depth t n)).
Proof.
  induction t as [|d l IHl r IHr h]; intros n Hbst.
  - constructor.
  - destruct Hbst as (Hlt & Hgt & Hl & Hr). destruct n as [|n]; simpl.
    + repeat constructor.
    + unfold level_keys. rewrite omap_app.
      apply StronglySorted_app_2; [|by apply IHl|by apply IHr].
      intros x1 x2 H1%level_keys_in H2%level_keys_in.
      apply Hlt in H1. apply Hgt in H2. lia.
Qed.

(** The number of levels is the recursive height. *)
Lemma depth_tree_height t : Z.of_nat (depth t) = tree_height t.
Proof. induction t as [|d l IHl r IHr h]; simpl; lia. Qed.

(** The leftmost node holds the first key of the in-order sequence. *)
Lemma min_value_head t :
  t ≠ Empty →
  ∃ m, data_of (_get_min_value_node t) = Some m ∧ head (inorder t) = Some m.
Proof.
  induction t as [|d l IHl r IHr h]; intros Hne; [done|].
  destruct l as [|ld ll lr lh].
  - by exists d.
  - destruct IHl as (m & Hm & Hhd); [done|].
    exists m. split; [exact Hm|].
    change (inorder (Node d (Node ld ll lr lh) r h))
      with (inorder (Node ld ll lr lh) ++ d :: inorder r).
    destruct (inorder (Node ld ll lr lh)); [done|exact Hhd].
Qed.

Lemma left_rotate_inorder zd zl yd T2 yr yh zh :
  ∃ t', _left_rotate (Node zd zl (Node yd T2 yr yh) zh) = Some t' ∧
        inorder t' = inorder (Node zd zl (Node yd T2 yr yh) zh) ∧
        size t' = size (Node zd zl (Node yd T2 yr yh) zh).
Proof.
  eexists. split; [done|]. simpl. split; [|lia].
  by rewrite <- app_assoc.
Qed.

Lemma right_rotate_inorder zd yd yl T3 yh zr zh :
  ∃ t', _right_rotate (Node zd (Node yd yl T3 yh) zr zh) = Some t' ∧
        inorder t' = inorder (Node zd (Node yd yl T3 yh) zr zh) ∧
        size t' = size (Node zd (Node yd yl T3 yh) zr zh).
Proof.
  eexists. split; [done|]. simpl. split; [|lia].
  by rewrite <- app_assoc.
Qed.

(** Distinctness of a literal list of keys. *)
Ltac nodup_keys :=
  repeat first
    [ apply NoDup_nil_2
    | apply NoDup_cons_2;
      [rewrite ?elem_of_cons, ?elem_of_nil; lia|] ].

(** ** Further properties of the operations *)

(** *** Shape of what a rebalancing step returns *)

Lemma left_rotate_shape z t' :
  _left_rotate z = Some t' →
  size t' = size z ∧ inorder t' = inorder z ∧ keys t' = keys z.
Proof.
  destruct z as [|zd zl [|yd T2 yr yh] zh]; try done.
  intros [= <-]. simpl. split; [lia|]. split; [|keys_eq].
  by rewrite <- app_assoc.
Qed.

Lemma right_rotate_shape z t' :
  _right_rotate z = Some t' →
  size t' = size z ∧ inorder t' = inorder z ∧ keys t' = keys z.
Proof.
  destruct z as [|zd [|yd yl T3 yh] zr zh]; try done.
  intros [= <-]. simpl. split; [lia|]. split; [|keys_eq].
  by rewrite <- app_assoc.
Qed.

Lemma rebalanced_shape d l r t' :
  rebalanced d l r t' →
  size t' = S (size l + size r) ∧
  inorder t' = inorder l ++ d :: inorder r ∧
  keys t' = {[ d ]} ∪ keys l ∪ keys r.
Proof.
  intros [->|H|H|l' h Hl' H|r' h Hr' H].
  - done.
  - by apply right_rotate_shape in H.
  - by apply left_rotate_shape in H.
  - apply left_rotate_shape in Hl' as (Hs & Hi & Hk).
    apply right_rotate_shape in H as (Hs' & Hi' & Hk').
    rewrite Hs', Hi', Hk'. simpl. by rewrite Hs, Hi, Hk.
  - apply right_rotate_shape in Hr' as (Hs & Hi & Hk).
    apply left_rotate_shape in H as (Hs' & Hi' & Hk').
    rewrite Hs', Hi', Hk'. simpl. by rewrite Hs, Hi, Hk.
Qed.

Lemma insert_shape t : ∀ k t',
  _insert_recursive t k = Some t' →
  size t' = S (size t) ∧ keys t' = {[ k ]} ∪ keys t.
Proof.
  induction t as [|d l IHl r IHr h]; intros k t' Hins; simpl in Hins.
  - injection Hins as <-. split; [done|keys_eq].
  - case_bool_decide.
    + destruct (_insert_recursive l k) as [l'|] eqn:El; [|done].
      simpl in Hins. apply insert_rebalance_cases, rebalanced_shape in Hins.
      destruct Hins as (Hs & _ & Hk), (IHl _ _ El) as (Hsl & Hkl).
      rewrite Hs, Hk, Hsl, Hkl. split; [simpl; lia|keys_eq].
    + destruct (_insert_recursive r k) as [r'|] eqn:Er; [|done].
      simpl in Hins. apply insert_rebalance_cases, rebalanced_shape in Hins.
      destruct Hins as (Hs & _ & Hk), (IHr _ _ Er) as (Hsr & Hkr).
      rewrite Hs, Hk, Hsr, Hkr. split; [simpl; lia|keys_eq].
Qed.

(** *** Deletion returns on every tree with exact heights *)

Lemma tree_height_nonneg t : 0 ≤ tree_height t.
Proof. induction t; simpl; lia. Qed.

Lemma heights_exact_pos_node t :
  heights_exact t → 0 < _get_height t → ∃ d l r h, t = Node d l r h.
Proof. destruct t as [|d l r h]; simpl; [lia|eauto]. Qed.

Ltac rebalance_returns :=
  unfold delete_rebalance, update_height;
  cbn [_get_balance _get_height] in *;
  repeat case_bool_decide; try lia; simpl; eauto.

Lemma heights_exact_get_nonneg t : heights_exact t → 0 ≤ _get_height t.
Proof.
  intros H. rewrite (heights_exact_get t H). apply tree_height_nonneg.
Qed.

Lemma delete_rebalance_total d l r :
  heights_exact l → heights_exact r → is_Some (delete_rebalance d l r).
Proof.
  intros Hl Hr.
  pose proof (heights_exact_get_nonneg l Hl) as Hl0.
  pose proof (heights_exact_get_nonneg r Hr) as Hr0.
  destruct (decide (_get_height l - _get_height r > 1)) as [H1|H1];
    [|destruct (decide (_get_height l - _get_height r < -1)) as [H2|H2]].
  - destruct (heights_exact_pos_node l) as (ld & ll & lr & lh & ->);
      [done|lia|].
    destruct Hl as (_ & Hll & Hlr).
    pose proof (heights_exact_get_nonneg ll Hll) as Hll0.
    destruct (decide (_get_height ll - _get_height lr >= 0)) as [H3|H3].
    + rebalance_returns.
    + destruct (heights_exact_pos_node lr) as (yd & yl & yr & yh & ->);
        [done|lia|].
      rebalance_returns.
  - destruct (heights_exact_pos_node r) as (rd & rl & rr & rh & ->);
      [done|lia|].
    destruct Hr as (_ & Hrl & Hrr).
    pose proof (heights_exact_get_nonneg rr Hrr) as Hrr0.
    destruct (decide (_get_height rl - _get_height rr <= 0)) as [H3|H3].
    + rebalance_returns.
    + destruct (heights_exact_pos_node rl) as (yd & yl & yr & yh & ->);
        [done|lia|].
      rebalance_returns.
  - rebalance_returns.
Qed.

Lemma delete_total t : ∀ k,
  heights_exact t → is_Some (_delete_recursive t k).
Proof.
  induction t as [|d l IHl r IHr h]; intros k Hex; [done|].
  destruct Hex as (_ & Hl & Hr).
  destruct (Z.lt_trichotomy k d) as [Hc|[->|Hc]].
  - rewrite delete_lt by done.
    destruct (IHl k Hl) as [l' El]. rewrite El. simpl.
    apply delete_rebalance_total; [exact (delete_heights _ _ _ Hl El)|done].
  - destruct (tree_empty_or_not l) as [->|Hnel];
      [by rewrite delete_no_left|].
    destruct (tree_empty_or_not r) as [->|Hner];
      [by rewrite delete_no_right|].
    rewrite delete_two_children by done.
    destruct (min_value_head r) as (m & Hm & _); [done|].
    rewrite Hm. simpl.
    destruct (IHr m Hr) as [r' Er]. rewrite Er. simpl.
    apply delete_rebalance_total; [done|exact (delete_heights _ _ _ Hr Er)].
  - rewrite delete_gt by done.
    destruct (IHr k Hr) as [r' Er]. rewrite Er. simpl.
    apply delete_rebalance_total; [done|exact (delete_heights _ _ _ Hr Er)].
Qed.

(** *** Deleting an absent key *)

Lemma delete_rebalance_id d l r h :
  avl_inv (Node d l r h) → delete_rebalance d l r = Some (Node d l r h).
Proof.
  intros Hinv. inv_node Hinv.
  unfold delete_rebalance, update_height. cbn [_get_balance].
  repeat case_bool_decide; try lia; cbn [andb]; by rewrite Hh.
Qed.

Lemma delete_absent t : ∀ k,
  avl_inv t → k ∉ keys t → _delete_recursive t k = Some t.
Proof.
  induction t as [|d l IHl r IHr h]; intros k Hinv Hk; [done|].
  pose proof Hinv as Hnode. inv_node Hinv.
  simpl keys in Hk. rewrite !not_elem_of_union, not_elem_of_singleton in Hk.
  destruct Hk as ((Hkd & Hkl) & Hkr).
  destruct (Z.lt_trichotomy k d) as [Hc|[->|Hc]]; [|done|].
  - rewrite delete_lt by done. rewrite IHl by done. simpl.
    by apply delete_rebalance_id.
  - rewrite delete_gt by done. rewrite IHr by done. simpl.
    by apply delete_rebalance_id.
Qed.

(** *** Rotations and the strict ordering *)

Lemma left_rotate_bst z t' : _left_rotate z = Some t' → bst z → bst t'.
Proof.
  destruct z as [|zd zl [|yd T2 yr yh] zh]; try done.
  intros Hrot Hbst. injection Hrot as <-. simpl in Hbst.
  destruct Hbst as (Hlt & Hgt & Hzl & (Hylt & Hygt & HT2 & Hyr)).
  simpl. repeat split; auto; bst_solver.
Qed.

Lemma right_rotate_bst z t' : _right_rotate z = Some t' → bst z → bst t'.
Proof.
  destruct z as [|zd [|yd yl T3 yh] zr zh]; try done.
  intros Hrot Hbst. injection Hrot as <-. simpl in Hbst.
  destruct Hbst as (Hlt & Hgt & (Hylt & Hygt & Hyl & HT3) & Hzr).
  simpl. repeat split; auto; bst_solver.
Qed.

(** *** Counting the collected nodes *)

Lemma count_extend_levels level acc :
  sum_list_with length (extend_levels level acc)
    = sum_list_with length acc.
Proof.
  unfold extend_levels. rewrite sum_list_with_app.
  induction (S level - length acc)%nat as [|n IH]; simpl in *; lia.
Qed.

Lemma count_alter_snoc (x : TreeNode) acc : ∀ i,
  (i < length acc)%nat →
  sum_list_with length (alter (λ lv, lv ++ [x]) i acc)
    = S (sum_list_with length acc).
Proof.
  induction acc as [|a acc IH]; intros [|i] Hi; simpl in Hi; try lia.
  - simpl. rewrite length_app. simpl. lia.
  - change (alter (λ lv, lv ++ [x]) (S i) (a :: acc))
      with (a :: alter (λ lv, lv ++ [x]) i acc).
    cbn [sum_list_with]. rewrite IH by lia. lia.
Qed.

Lemma collect_count t : ∀ level acc,
  (level ≤ length acc)%nat →
  sum_list_with length (_collect_nodes_by_level t level acc)
    = (sum_list_with length acc + size t)%nat.
Proof.
  induction t as [|d l IHl r IHr h]; intros level acc Hlevel.
  - simpl. lia.
  - cbn [_collect_nodes_by_level].
    set (node := Node d l r h).
    set (acc1 := extend_levels level acc).
    set (acc2 := alter (λ lv, lv ++ [node]) level acc1).
    assert (length acc1 = Nat.max (length acc) (S level)) as Hlen1
      by apply extend_levels_length.
    assert (length acc2 = length acc1) as Hlen2 by apply length_alter.
    destruct (collect_spec l (S level) acc2) as (Hlen3 & _); [lia|].
    rewrite IHr by lia. rewrite IHl by lia. subst acc2.
    rewrite count_alter_snoc by lia. subst acc1.
    rewrite count_extend_levels. simpl. lia.
Qed.

(** *** The handler of an entry *)

Lemma handle_input_avl tree num :
  avl_inv (root tree) → 0 < num →
  ∃ tree', handle_input tree num = TreeUpdated tree' ∧
           avl_inv (root tree') ∧
           keys (root tree') = toggle (keys (root tree)) num.
Proof.
  intros Hinv Hpos. unfold handle_input, contains, toggle.
  rewrite bool_decide_eq_false_2 by lia. cbn [search snd].
  pose proof (search_ordered (root tree) num (avl_inv_ordered _ Hinv)) as Hs.
  destruct (_search_recursive (root tree) num).
  - rewrite decide_True by (by apply Hs).
    destruct (delete_avl (root tree) num Hinv) as (r & Hr & Hi & Hk & _).
    unfold delete. rewrite Hr. simpl. eauto.
  - assert (num ∉ keys (root tree)) as Hnot
      by (intros Hin; by apply Hs in Hin).
    rewrite decide_False by done.
    destruct (insert_avl (root tree) num Hinv Hnot)
      as (r & Hr & Hi & Hk & _).
    unfold insert. rewrite Hr. simpl. eauto.
Qed.

Lemma handle_inputs_avl nums : ∀ tree,
  avl_inv (root tree) → Forall (λ num, 0 < num) nums →
  ∃ tree', handle_inputs nums tree = TreeUpdated tree' ∧
           avl_inv (root tree') ∧
           keys (root tree') = foldl toggle (keys (root tree)) nums.
Proof.
  induction nums as [|num nums IH]; intros tree Hinv Hpos.
  - by exists tree.
  - apply Forall_cons in Hpos as [Hnum Hpos].
    destruct (handle_input_avl tree num Hinv Hnum) as (t1 & H1 & Hi1 & Hk1).
    destruct (IH t1 Hi1 Hpos) as (t' & H' & Hi' & Hk').
    exists t'. simpl. rewrite H1, <- Hk1. done.
Qed.

(** A concrete tree satisfies one of the invariants. *)
Ltac concrete_tree :=
  simpl; repeat split; try lia; try done; try bst_solver.

(** *** Removing the leftmost node *)

Lemma bst_ordered t : bst t → ordered t.
Proof.
  induction t as [|d l IHl r IHr h]; simpl; [done|].
  intros (Hlt & Hgt & Hl & Hr).
  repeat split; auto; intros x Hx; [apply Hlt in Hx|apply Hgt in Hx]; lia.
Qed.

(** Deleting the key of the leftmost node from a binary search tree removes
    the first element of the in-order sequence and nothing else. *)
Lemma delete_min_inorder r : ∀ m r',
  bst r → data_of (_get_min_value_node r) = Some m →
  _delete_recursive r m = Some r' →
  inorder r = m :: inorder r' ∧ size r = S (size r').
Proof.
  induction r as [|d l IHl rr _ h]; intros m r' Hbst Hm Hdel; [done|].
  destruct Hbst as (Hlt & _ & Hl & _).
  destruct (tree_empty_or_not l) as [->|Hne].
  - simpl in Hm. injection Hm as <-.
    rewrite delete_no_left in Hdel. by injection Hdel as <-.
  - assert (data_of (_get_min_value_node l) = Some m) as Hml
      by (by destruct l).
    destruct (min_value_spec l Hne (bst_ordered _ Hl)) as (m' & Hm' & Hin & _).
    rewrite Hml in Hm'. injection Hm' as <-.
    pose proof (Hlt m Hin) as Hmd.
    rewrite delete_lt in Hdel by done.
    destruct (_delete_recursive l m) as [l2|] eqn:El; [|done].
    simpl in Hdel.
    apply delete_rebalance_cases, rebalanced_shape in Hdel as (Hs & Hi & _).
    destruct (IHl m l2 Hl Hml El) as (Hil & Hsl).
    rewrite Hi, Hs. simpl. by rewrite Hil, Hsl.
Qed.

(** ** The claims *)

(** C1 (defect in the code): [_insert_recursive] has no test for an equal
    key, so inserting a key that [search] reports as present does not leave
    the tree unchanged.  After [insert(10)], a second [insert(10)] returns a
    tree with a second node of key 10 as right child of the first. *)
Theorem insert_present_key_adds_node :
  ∃ t, insert_all [10] empty_tree = Some t ∧
       (search t 10).2 = true ∧
       insert t 10 =
         Some {| root := Node 10 Empty (Node 10 Empty Empty 1) 2 |} ∧
       insert t 10 ≠ Some t.
Proof. eexists. repeat split; try reflexivity. discriminate. Qed.

(** C2 (same defect): after the calls insert(10), insert(10) the tree is not
    a binary search tree, and after a third insert(10) the root has
    subtrees of heights 0 and 2, so the balance property fails as well. *)
Theorem duplicate_inserts_break_invariants :
  (∃ t, run [OpInsert 10; OpInsert 10] empty_tree = Some t ∧
        ¬ bst (root t)) ∧
  (∃ t, run [OpInsert 10; OpInsert 10; OpInsert 10] empty_tree = Some t ∧
        ¬ balanced (root t) ∧ ¬ balance_factors_ok (root t)).
Proof.
  split; eexists; (split; [reflexivity|]).
  - intros (_ & H & _). apply (Z.lt_irrefl 10), H.
    simpl. rewrite !elem_of_union, elem_of_singleton. by left; left.
  - split; simpl; lia.
Qed.

(** C3: for every list of pairwise-distinct keys, every prefix of the list
    can be inserted into the empty tree without an exception, and the
    resulting tree is a binary search tree in which every node is balanced,
    both on the recursive heights and on the balance factor that
    [_get_balance] computes. *)
Theorem distinct_inserts_keep_bst_and_balance (ks p : list Z) :
  NoDup ks → p `prefix_of` ks →
  ∃ t, insert_all p empty_tree = Some t ∧
       bst (root t) ∧ balanced (root t) ∧ balance_factors_ok (root t).
Proof.
  intros Hnd [q ->]. apply NoDup_app in Hnd as (Hnd & _ & _).
  destruct (insert_all_avl p empty_tree) as (t & Hrun & Hinv & _);
    [done|done|intros k _; apply not_elem_of_empty|].
  exists t. split; [done|].
  auto using avl_inv_bst, avl_inv_balanced, avl_inv_balance_factors.
Qed.

Lemma distinct_inserts_keep_bst_and_balance_witness :
  ∃ t, insert_all [30; 10; 20] empty_tree = Some t ∧
       bst (root t) ∧ balanced (root t) ∧ balance_factors_ok (root t).
Proof.
  apply (distinct_inserts_keep_bst_and_balance [30; 10; 20; 40]).
  - nodup_keys.
  - by exists [40].
Defined.

(** C4: whenever a sequence of public calls (of any kind, with arbitrary
    keys, repeated keys included) started on the empty tree returns from
    every call, each node's stored [height] is the recursive height of its
    subtree: 1 + max of the children's heights, with 0 for an absent
    child. *)
Theorem stored_heights_exact_after_run (ops : list op) (t : AVLTree) :
  run ops empty_tree = Some t → heights_exact (root t).
Proof. intros Hrun. by eapply run_heights; [|exact Hrun]. Qed.

Lemma stored_heights_exact_after_run_witness :
  heights_exact (Node 20 (Node 10 Empty Empty 1)
                         (Node 30 Empty (Node 30 Empty Empty 1) 2) 3).
Proof.
  apply (stored_heights_exact_after_run
           [OpInsert 10; OpInsert 20; OpInsert 30; OpInsert 30; OpInsert 5;
            OpDelete 5]
           {| root := Node 20 (Node 10 Empty Empty 1)
                        (Node 30 Empty (Node 30 Empty Empty 1) 2) 3 |}).
  vm_compute. reflexivity.
Defined.

(** C5: on every tree whose keys are ordered (smaller or equal keys to the
    left, larger or equal keys to the right, which holds in particular for
    every binary search tree), [search] answers true exactly when the key is
    stored; it goes by ordered descent (absent node: false; equal key: true;
    smaller: left subtree; larger: right subtree); and the object is
    unchanged. *)
Theorem search_spec (self : AVLTree) (data : Z) :
  ordered (root self) →
  ((search self data).2 = true ↔ data ∈ keys (root self)) ∧
  (search self data).1 = self ∧
  _search_recursive Empty data = false ∧
  (∀ l r h, _search_recursive (Node data l r h) data = true) ∧
  (∀ d l r h, data < d →
     _search_recursive (Node d l r h) data = _search_recursive l data) ∧
  (∀ d l r h, d < data →
     _search_recursive (Node d l r h) data = _search_recursive r data).
Proof.
  intros Hord. split; [by apply search_ordered|].
  split; [done|]. split; [done|]. split; [|split].
  - intros l r h. simpl. by rewrite bool_decide_eq_true_2.
  - intros d l r h Hlt. simpl.
    rewrite bool_decide_eq_false_2 by lia.
    by rewrite bool_decide_eq_true_2.
  - intros d l r h Hgt. simpl.
    rewrite bool_decide_eq_false_2 by lia.
    by rewrite bool_decide_eq_false_2 by lia.
Qed.

Lemma search_spec_witness :
  (search {| root := Node 20 (Node 10 Empty Empty 1)
                       (Node 30 Empty Empty 1) 2 |} 30).2 = true ↔
  30 ∈ keys (Node 20 (Node 10 Empty Empty 1) (Node 30 Empty Empty 1) 2).
Proof.
  apply (search_spec {| root := Node 20 (Node 10 Empty Empty 1)
                                  (Node 30 Empty Empty 1) 2 |} 30).
  simpl. repeat split; try done; bst_solver.
Defined.

(** C6: a left rotation at a node with a right child, and a right rotation
    at a node with a left child, return a tree with the same in-order key
    sequence and the same number of nodes; only the shape changes. *)
Theorem rotations_preserve_inorder :
  (∀ zd zl yd T2 yr yh zh,
     ∃ t', _left_rotate (Node zd zl (Node yd T2 yr yh) zh) = Some t' ∧
           inorder t' = inorder (Node zd zl (Node yd T2 yr yh) zh) ∧
           size t' = size (Node zd zl (Node yd T2 yr yh) zh)) ∧
  (∀ zd yd yl T3 yh zr zh,
     ∃ t', _right_rotate (Node zd (Node yd yl T3 yh) zr zh) = Some t' ∧
           inorder t' = inorder (Node zd (Node yd yl T3 yh) zr zh) ∧
           size t' = size (Node zd (Node yd yl T3 yh) zr zh)).
Proof.
  split; intros; [apply left_rotate_inorder|apply right_rotate_inorder].
Qed.

(** C7: deleting the key of a node with two children takes the key [m] of
    the leftmost node of the right subtree and rebuilds the node with key
    [m] over the old left subtree and the right subtree from which [m] has
    been deleted.  When the tree is a binary search tree with exact stored
    heights, all these calls return, [m] is the first key of the right
    subtree's in-order sequence, the reduced right subtree is the old one
    without exactly that first node, and the tree returned has the old
    in-order sequence with the deleted key taken out (one node fewer, the
    successor's key in its place).  On the tree built from
    20, 10, 30, 5, 15, 25, 35, deleting 20 gives the tree with root 25 over
    10 (5, 15) and 30 (-, 35), in which every node is balanced. *)
Theorem delete_two_children_uses_successor
    (d ld : Z) (ll lr : TreeNode) (lh rd : Z) (rl rr : TreeNode) (rh h : Z) :
  (∃ m, head (inorder (Node rd rl rr rh)) = Some m ∧
        data_of (_get_min_value_node (Node rd rl rr rh)) = Some m ∧
        _delete_recursive
          (Node d (Node ld ll lr lh) (Node rd rl rr rh) h) d =
          r' ← _delete_recursive (Node rd rl rr rh) m;
          delete_rebalance m (Node ld ll lr lh) r') ∧
  (bst (Node d (Node ld ll lr lh) (Node rd rl rr rh) h) →
   heights_exact (Node d (Node ld ll lr lh) (Node rd rl rr rh) h) →
   ∃ m r' t',
     data_of (_get_min_value_node (Node rd rl rr rh)) = Some m ∧
     _delete_recursive (Node rd rl rr rh) m = Some r' ∧
     inorder (Node rd rl rr rh) = m :: inorder r' ∧
     size (Node rd rl rr rh) = S (size r') ∧
     delete_rebalance m (Node ld ll lr lh) r' = Some t' ∧
     _delete_recursive
       (Node d (Node ld ll lr lh) (Node rd rl rr rh) h) d = Some t' ∧
     inorder t' = inorder (Node ld ll lr lh) ++ m :: inorder r' ∧
     inorder t' =
       inorder (Node ld ll lr lh) ++ inorder (Node rd rl rr rh) ∧
     size (Node d (Node ld ll lr lh) (Node rd rl rr rh) h) = S (size t')) ∧
  (∃ t t', insert_all [20; 10; 30; 5; 15; 25; 35] empty_tree = Some t ∧
           delete t 20 = Some t' ∧
           root t' =
             Node 25 (Node 10 (Node 5 Empty Empty 1) (Node 15 Empty Empty 1) 2)
                     (Node 30 Empty (Node 35 Empty Empty 1) 2) 3 ∧
           data_of (root t') = Some 25 ∧
           inorder (root t') = [5; 10; 15; 25; 30; 35] ∧
           balanced (root t') ∧ balance_factors_ok (root t')).
Proof.
  set (l := Node ld ll lr lh). set (r := Node rd rl rr rh).
  destruct (min_value_head r) as (m & Hm & Hhd); [done|].
  assert (_delete_recursive (Node d l r h) d =
            r' ← _delete_recursive r m; delete_rebalance m l r') as Heq
    by (rewrite delete_two_children by done; by rewrite Hm).
  split; [by exists m|]. split.
  - intros (Hlt & Hgt & Hbl & Hbr) (_ & Hexl & Hexr).
    destruct (delete_total r m Hexr) as [r' Hr'].
    destruct (delete_min_inorder r m r' Hbr Hm Hr') as (Hi & Hs).
    destruct (delete_rebalance_total m l r') as [t' Ht'];
      [done|exact (delete_heights _ _ _ Hexr Hr')|].
    pose proof Ht' as Hshape.
    apply delete_rebalance_cases, rebalanced_shape in Hshape
      as (Hs' & Hi' & _).
    exists m, r', t'. split; [done|]. split; [done|]. split; [done|].
    split; [done|]. split; [done|].
    split; [by rewrite Heq, Hr'|]. split; [done|].
    split; [by rewrite Hi', Hi|].
    rewrite Hs'. cbn [size]. rewrite Hs. lia.
  - eexists. eexists. split; [reflexivity|]. split; [reflexivity|].
    split; [reflexivity|]. split; [reflexivity|].
    split; [reflexivity|]. split; simpl; lia.
Qed.

Lemma delete_two_children_uses_successor_witness :
  ∃ m r' t',
    data_of (_get_min_value_node
               (Node 30 (Node 25 Empty (Node 27 Empty Empty 1) 2)
                        (Node 35 Empty Empty 1) 3)) = Some m ∧
    _delete_recursive
      (Node 30 (Node 25 Empty (Node 27 Empty Empty 1) 2)
               (Node 35 Empty Empty 1) 3) m = Some r' ∧
    inorder (Node 30 (Node 25 Empty (Node 27 Empty Empty 1) 2)
                     (Node 35 Empty Empty 1) 3) = m :: inorder r' ∧
    size (Node 30 (Node 25 Empty (Node 27 Empty Empty 1) 2)
                  (Node 35 Empty Empty 1) 3) = S (size r') ∧
    delete_rebalance m (Node 10 (Node 5 Empty Empty 1) Empty 2) r'
      = Some t' ∧
    _delete_recursive
      (Node 20 (Node 10 (Node 5 Empty Empty 1) Empty 2)
               (Node 30 (Node 25 Empty (Node 27 Empty Empty 1) 2)
                        (Node 35 Empty Empty 1) 3) 4) 20 = Some t' ∧
    inorder t' =
      inorder (Node 10 (Node 5 Empty Empty 1) Empty 2) ++ m :: inorder r' ∧
    inorder t' =
      inorder (Node 10 (Node 5 Empty Empty 1) Empty 2) ++
      inorder (Node 30 (Node 25 Empty (Node 27 Empty Empty 1) 2)
                       (Node 35 Empty Empty 1) 3) ∧
    size (Node 20 (Node 10 (Node 5 Empty Empty 1) Empty 2)
                  (Node 30 (Node 25 Empty (Node 27 Empty Empty 1) 2)
                           (Node 35 Empty Empty 1) 3) 4) = S (size t').
Proof.
  apply (delete_two_children_uses_successor
           20 10 (Node 5 Empty Empty 1) Empty 2
           30 (Node 25 Empty (Node 27 Empty Empty 1) 2)
              (Node 35 Empty Empty 1) 3 4).
  - concrete_tree.
  - concrete_tree.
Defined.

(** C8: inserting pairwise-distinct keys in some order into the empty tree
    and then deleting the same keys in any order returns from every call and
    ends with the empty tree. *)
Theorem insert_then_delete_all_empty (ins del : list Z) :
  NoDup ins → del ≡ₚ ins →
  run ((OpInsert <$> ins) ++ (OpDelete <$> del)) empty_tree
    = Some empty_tree.
Proof.
  intros Hnd Hperm. rewrite run_app.
  destruct (insert_all_avl ins empty_tree) as (t & Hrun & Hinv & Hkeys);
    [done|done|intros k _; apply not_elem_of_empty|].
  unfold insert_all in Hrun. rewrite Hrun. simpl.
  destruct (delete_all_avl del t) as (t' & Hdel & _ & Hkeys'); [done|].
  unfold delete_all in Hdel. rewrite Hdel. f_equal.
  destruct t' as [r']. simpl in *. f_equal. apply keys_empty_inv.
  rewrite Hkeys', Hkeys. apply set_eq. intros x.
  rewrite elem_of_difference, elem_of_union, !elem_of_list_to_set, Hperm.
  rewrite elem_of_empty. tauto.
Qed.

Lemma insert_then_delete_all_empty_witness :
  run ((OpInsert <$> [3; 1; 2; 5; 4]) ++ (OpDelete <$> [1; 4; 3; 5; 2]))
      empty_tree = Some empty_tree.
Proof.
  apply insert_then_delete_all_empty.
  - nodup_keys.
  - apply (bool_decide_unpack _). vm_compute. reflexivity.
Defined.

(** C9: [get_nodes_by_level] leaves the object as it is and returns one list
    per depth, from depth 0 down to the deepest level, the list at depth [n]
    holding the nodes at that depth from left to right; for a non-empty tree
    the first list is the root alone.  On the tree built from
    20, 10, 30, 5, 15, 25, 35 the keys are [[20],[10,30],[5,15,25,35]]. *)
Theorem level_order_spec (self : AVLTree) :
  (get_nodes_by_level self).1 = self ∧
  (get_nodes_by_level self).2 =
    nodes_at_depth (root self) <$> seq 0 (depth (root self)) ∧
  length (get_nodes_by_level self).2 = depth (root self) ∧
  (root self ≠ Empty →
     (get_nodes_by_level self).2 !! 0%nat = Some [root self]) ∧
  (∃ t, insert_all [20; 10; 30; 5; 15; 25; 35] empty_tree = Some t ∧
        level_keys <$> (get_nodes_by_level t).2
          = [[20]; [10; 30]; [5; 15; 25; 35]]).
Proof.
  split; [apply get_nodes_by_level_self|].
  split; [apply levels_spec|].
  split; [by rewrite levels_spec, length_fmap, length_seq|].
  split.
  - intros Hne. rewrite levels_spec. by destruct (root self).
  - eexists. split; reflexivity.
Qed.

Lemma level_order_spec_witness :
  (get_nodes_by_level {| root := Node 7 Empty Empty 1 |}).2 !! 0%nat
    = Some [Node 7 Empty Empty 1].
Proof.
  apply (level_order_spec {| root := Node 7 Empty Empty 1 |}).
  simpl. discriminate.
Defined.

(** C10: on a binary search tree every list of [get_nodes_by_level] has its
    keys in strictly increasing order, and on the empty tree the result is
    the empty list. *)
Theorem levels_sorted_on_bst (self : AVLTree) :
  bst (root self) →
  (∀ lv, lv ∈ (get_nodes_by_level self).2 →
         StronglySorted Z.lt (level_keys lv)) ∧
  (get_nodes_by_level empty_tree).2 = [].
Proof.
  intros Hbst. split; [|done].
  intros lv Hlv. rewrite levels_spec in Hlv.
  apply list_elem_of_fmap in Hlv as (n & -> & _).
  by apply level_keys_sorted.
Qed.

Lemma levels_sorted_on_bst_witness :
  StronglySorted Z.lt
    (level_keys [Node 10 Empty Empty 1; Node 30 Empty Empty 1]).
Proof.
  apply (levels_sorted_on_bst
           {| root := Node 20 (Node 10 Empty Empty 1)
                        (Node 30 Empty Empty 1) 2 |}).
  - simpl. repeat split; try done; bst_solver.
  - apply elem_of_cons; right. apply elem_of_cons; left. reflexivity.
Defined.

(** ** Properties beyond the claims *)

(** X1: on a tree that satisfies the invariants, inserting a key that
    [search] does not find returns without an exception, keeps the
    invariants, adds exactly that key and one node, makes [search] find the
    key, and leaves the height as it was or one larger. *)
Theorem insert_absent_key_avl (self : AVLTree) (k : Z) :
  avl_inv (root self) → (search self k).2 = false →
  ∃ t', insert self k = Some t' ∧ avl_inv (root t') ∧
        keys (root t') = {[ k ]} ∪ keys (root self) ∧
        size (root t') = S (size (root self)) ∧
        (search t' k).2 = true ∧
        (_get_height (root t') = _get_height (root self) ∨
         _get_height (root t') = _get_height (root self) + 1).
Proof.
  intros Hinv Hs.
  assert (k ∉ keys (root self)) as Hnot.
  { intros Hin. apply (search_ordered _ _ (avl_inv_ordered _ Hinv)) in Hin.
    simpl in Hs. congruence. }
  destruct (insert_avl (root self) k Hinv Hnot) as (r & Hr & Hi & Hk & Hh).
  exists {| root := r |}. unfold insert. rewrite Hr. simpl.
  split; [done|]. split; [done|]. split; [done|].
  split; [by apply insert_shape in Hr as [? _]|]. split.
  - apply (search_ordered _ _ (avl_inv_ordered _ Hi)).
    rewrite Hk. apply elem_of_union_l, elem_of_singleton. done.
  - destruct Hh as [?|[? _]]; auto.
Qed.

Lemma insert_absent_key_avl_witness :
  ∃ t', insert {| root := Node 20 (Node 10 Empty Empty 1)
                            (Node 30 Empty Empty 1) 2 |} 25 = Some t' ∧
        avl_inv (root t') ∧
        keys (root t') =
          {[ 25 ]} ∪ keys (Node 20 (Node 10 Empty Empty 1)
                             (Node 30 Empty Empty 1) 2) ∧
        size (root t') = 4%nat ∧
        (search t' 25).2 = true ∧
        (_get_height (root t') = 2 ∨ _get_height (root t') = 2 + 1).
Proof.
  apply (insert_absent_key_avl
           {| root := Node 20 (Node 10 Empty Empty 1)
                        (Node 30 Empty Empty 1) 2 |} 25).
  - concrete_tree.
  - reflexivity.
Defined.

(** X2: on a tree that satisfies the invariants, [delete] returns for every
    key, keeps the invariants, removes exactly that key, after which
    [search] does not find it, and the height stays or drops by one. *)
Theorem delete_avl_spec (self : AVLTree) (k : Z) :
  avl_inv (root self) →
  ∃ t', delete self k = Some t' ∧ avl_inv (root t') ∧
        keys (root t') = keys (root self) ∖ {[ k ]} ∧
        (search t' k).2 = false ∧
        (_get_height (root t') = _get_height (root self) ∨
         _get_height (root t') = _get_height (root self) - 1).
Proof.
  intros Hinv.
  destruct (delete_avl (root self) k Hinv) as (r & Hr & Hi & Hk & Hh).
  exists {| root := r |}. unfold delete. rewrite Hr. simpl.
  split; [done|]. split; [done|]. split; [done|]. split; [|done].
  destruct (_search_recursive r k) eqn:E; [|done].
  apply (search_ordered _ _ (avl_inv_ordered _ Hi)) in E.
  rewrite Hk in E. apply elem_of_difference in E as [_ E].
  by apply not_elem_of_singleton in E.
Qed.

Lemma delete_avl_spec_witness :
  ∃ t', delete {| root := Node 20 (Node 10 Empty Empty 1)
                            (Node 30 Empty Empty 1) 2 |} 20 = Some t' ∧
        avl_inv (root t') ∧
        keys (root t') =
          keys (Node 20 (Node 10 Empty Empty 1) (Node 30 Empty Empty 1) 2)
            ∖ {[ 20 ]} ∧
        (search t' 20).2 = false ∧
        (_get_height (root t') = 2 ∨ _get_height (root t') = 2 - 1).
Proof.
  apply (delete_avl_spec
           {| root := Node 20 (Node 10 Empty Empty 1)
                        (Node 30 Empty Empty 1) 2 |} 20).
  concrete_tree.
Defined.

(** X3: deleting a key that is not stored returns the very same tree, stored
    heights included, when the tree satisfies the invariants. *)
Theorem delete_absent_key_unchanged (self : AVLTree) (k : Z) :
  avl_inv (root self) → k ∉ keys (root self) → delete self k = Some self.
Proof.
  intros Hinv Hk. unfold delete. rewrite delete_absent by done.
  by destruct self.
Qed.

Lemma delete_absent_key_unchanged_witness :
  delete {| root := Node 20 (Node 10 Empty Empty 1)
                      (Node 30 Empty Empty 1) 2 |} 25
  = Some {| root := Node 20 (Node 10 Empty Empty 1)
                      (Node 30 Empty Empty 1) 2 |}.
Proof.
  apply delete_absent_key_unchanged.
  - concrete_tree.
  - simpl. rewrite !not_elem_of_union, !not_elem_of_singleton.
    repeat split; try lia; apply not_elem_of_empty.
Defined.

(** X4: [delete] never raises on a tree that public calls have built, also
    when repeated inserts have stored a key twice: exact heights are enough
    for every rotation it starts to find the child it reads. *)
Theorem delete_returns_on_reachable (ops : list op) (t : AVLTree) (k : Z) :
  run ops empty_tree = Some t → is_Some (delete t k).
Proof.
  intros Hrun. unfold delete.
  destruct (delete_total (root t) k) as [r Hr].
  - by eapply run_heights; [|exact Hrun].
  - rewrite Hr. by eexists.
Qed.

Lemma delete_returns_on_reachable_witness :
  is_Some (delete {| root := Node 10 Empty
                               (Node 10 Empty (Node 10 Empty Empty 1) 2) 3 |}
                  10).
Proof.
  apply (delete_returns_on_reachable [OpInsert 10; OpInsert 10; OpInsert 10]).
  vm_compute. reflexivity.
Defined.

(** X5: [insert] is not total on the trees that public calls build: after
    the inserts 1, 1, 2, 2, 2, 2 (all of which return) a further insert of 1
    raises, the Right Left case calling [_right_rotate] on a node without a
    left child. *)
Theorem insert_raises_after_duplicates :
  ∃ t, insert_all [1; 1; 2; 2; 2; 2] empty_tree = Some t ∧
       (search t 1).2 = true ∧ insert t 1 = None.
Proof. eexists. split; [reflexivity|]. split; reflexivity. Qed.

(** X6: every tree that a sequence of returning public calls builds from the
    empty tree keeps smaller-or-equal keys to the left and larger-or-equal
    keys to the right, so [search] is exact on it. *)
Theorem search_exact_on_reachable (ops : list op) (t : AVLTree) (k : Z) :
  run ops empty_tree = Some t →
  ordered (root t) ∧ ((search t k).2 = true ↔ k ∈ keys (root t)).
Proof.
  intros Hrun.
  assert (ordered (root t)) as Hord by (by eapply run_ordered; [|exact Hrun]).
  split; [done|]. by apply search_ordered.
Qed.

Lemma search_exact_on_reachable_witness :
  ordered (Node 10 Empty (Node 10 Empty Empty 1) 2) ∧
  ((search {| root := Node 10 Empty (Node 10 Empty Empty 1) 2 |} 10).2 = true
   ↔ 10 ∈ keys (Node 10 Empty (Node 10 Empty Empty 1) 2)).
Proof.
  apply (search_exact_on_reachable [OpInsert 10; OpInsert 10]
           {| root := Node 10 Empty (Node 10 Empty Empty 1) 2 |} 10).
  vm_compute. reflexivity.
Defined.

(** X7: on a non-empty ordered tree [_get_min_value_node] returns a node
    whose key is stored in the tree, is a lower bound of all keys and is the
    first key of the in-order sequence; on [None] it returns [None]. *)
Theorem min_value_node_least (t : TreeNode) :
  _get_min_value_node Empty = Empty ∧
  (t ≠ Empty → ordered t →
   ∃ m, data_of (_get_min_value_node t) = Some m ∧ m ∈ keys t ∧
        (∀ x, x ∈ keys t → m ≤ x) ∧ head (inorder t) = Some m).
Proof.
  split; [done|]. intros Hne Hord.
  destruct (min_value_spec t Hne Hord) as (m & Hm & Hin & Hle).
  destruct (min_value_head t Hne) as (m' & Hm' & Hhd).
  exists m. rewrite Hm in Hm'. injection Hm' as ->. done.
Qed.

Lemma min_value_node_least_witness :
  ∃ m, data_of (_get_min_value_node
                  (Node 20 (Node 10 Empty Empty 1) (Node 30 Empty Empty 1) 2))
         = Some m ∧
       m ∈ keys (Node 20 (Node 10 Empty Empty 1) (Node 30 Empty Empty 1) 2) ∧
       (∀ x, x ∈ keys (Node 20 (Node 10 Empty Empty 1)
                         (Node 30 Empty Empty 1) 2) → m ≤ x) ∧
       head (inorder (Node 20 (Node 10 Empty Empty 1)
                        (Node 30 Empty Empty 1) 2)) = Some m.
Proof.
  apply (min_value_node_least
           (Node 20 (Node 10 Empty Empty 1) (Node 30 Empty Empty 1) 2)).
  - discriminate.
  - concrete_tree.
Defined.

(** X8: a rotation that returns keeps the binary-search-tree property, the
    key set and the number of nodes. *)
Theorem rotations_keep_bst (z t' : TreeNode) :
  _left_rotate z = Some t' ∨ _right_rotate z = Some t' →
  bst z → bst t' ∧ keys t' = keys z ∧ size t' = size z.
Proof.
  intros [H|H] Hbst.
  - split; [by eapply left_rotate_bst|].
    by apply left_rotate_shape in H as (? & _ & ?).
  - split; [by eapply right_rotate_bst|].
    by apply right_rotate_shape in H as (? & _ & ?).
Qed.

Lemma rotations_keep_bst_witness :
  bst (Node 20 (Node 10 Empty Empty 1) (Node 30 Empty Empty 1) 2) ∧
  keys (Node 20 (Node 10 Empty Empty 1) (Node 30 Empty Empty 1) 2)
    = keys (Node 10 Empty (Node 20 Empty (Node 30 Empty Empty 1) 2) 3) ∧
  size (Node 20 (Node 10 Empty Empty 1) (Node 30 Empty Empty 1) 2)
    = size (Node 10 Empty (Node 20 Empty (Node 30 Empty Empty 1) 2) 3).
Proof.
  apply (rotations_keep_bst
           (Node 10 Empty (Node 20 Empty (Node 30 Empty Empty 1) 2) 3)).
  - left. reflexivity.
  - concrete_tree.
Defined.

(** X9: on a tree with exact stored heights the two rotations undo each
    other: right-rotating the result of a left rotation gives back the
    original tree, stored heights included, and likewise the other way
    round. *)
Theorem rotations_inverse (z t' : TreeNode) :
  heights_exact z →
  (_left_rotate z = Some t' → _right_rotate t' = Some z) ∧
  (_right_rotate z = Some t' → _left_rotate t' = Some z).
Proof.
  intros Hex. split; intros H.
  - destruct z as [|zd zl [|yd T2 yr yh] zh]; try done.
    injection H as <-. simpl in Hex.
    destruct Hex as (Hz & Hzl & (Hy & HT2 & Hyr)).
    unfold _right_rotate, update_height. cbn [_get_height].
    rewrite (heights_exact_get zl), (heights_exact_get T2),
      (heights_exact_get yr) by done.
    by subst zh yh.
  - destruct z as [|zd [|yd yl T3 yh] zr zh]; try done.
    injection H as <-. simpl in Hex.
    destruct Hex as (Hz & (Hy & Hyl & HT3) & Hzr).
    unfold _left_rotate, update_height. cbn [_get_height].
    rewrite (heights_exact_get yl), (heights_exact_get T3),
      (heights_exact_get zr) by done.
    by subst zh yh.
Qed.

Lemma rotations_inverse_witness :
  _right_rotate (Node 20 (Node 10 Empty Empty 1) (Node 30 Empty Empty 1) 2)
  = Some (Node 10 Empty (Node 20 Empty (Node 30 Empty Empty 1) 2) 3).
Proof.
  apply (rotations_inverse
           (Node 10 Empty (Node 20 Empty (Node 30 Empty Empty 1) 2) 3)).
  - concrete_tree.
  - reflexivity.
Defined.

(** X10: entries handled by [handle_input], starting from the empty tree:
    as long as every entry is positive the tree is updated each time (no
    exception, no duplicate), it is a balanced binary search tree with exact
    heights, and its key set is the one obtained by toggling each entry in
    turn; a non-positive entry closes the window. *)
Theorem handle_inputs_keep_invariants (nums : list Z) :
  Forall (λ num, 0 < num) nums →
  (∃ tree, handle_inputs nums empty_tree = TreeUpdated tree ∧
           bst (root tree) ∧ balanced (root tree) ∧
           heights_exact (root tree) ∧
           keys (root tree) = foldl toggle ∅ nums) ∧
  (∀ tree num, num ≤ 0 → handle_input tree num = WindowClosed).
Proof.
  intros Hpos. split.
  - destruct (handle_inputs_avl nums empty_tree) as (t & Ht & Hinv & Hk);
      [done|done|].
    exists t. split; [done|].
    split; [by apply avl_inv_bst|]. split; [by apply avl_inv_balanced|].
    split; [by apply avl_inv_heights|done].
  - intros tree num Hnum. unfold handle_input.
    by rewrite bool_decide_eq_true_2.
Qed.

Lemma handle_inputs_keep_invariants_witness :
  ∃ tree, handle_inputs [5; 3; 5; 8; 3; 3] empty_tree = TreeUpdated tree ∧
          bst (root tree) ∧ balanced (root tree) ∧
          heights_exact (root tree) ∧
          keys (root tree) = foldl toggle ∅ [5; 3; 5; 8; 3; 3].
Proof.
  apply (handle_inputs_keep_invariants [5; 3; 5; 8; 3; 3]).
  repeat (apply Forall_cons; split; [lia|]). apply Forall_nil_2.
Defined.

(** X11: the statistics computed from [get_nodes_by_level]: the node count
    is the number of nodes of the tree, the height shown is the recursive
    height, and it is the root's stored height when the stored heights are
    exact. *)
Theorem stats_of_levels (self : AVLTree) :
  stats_node_count (get_nodes_by_level self).2 = size (root self) ∧
  Z.of_nat (stats_tree_height (get_nodes_by_level self).2)
    = tree_height (root self) ∧
  (heights_exact (root self) →
   Z.of_nat (stats_tree_height (get_nodes_by_level self).2)
     = _get_height (root self)).
Proof.
  assert (Z.of_nat (stats_tree_height (get_nodes_by_level self).2)
          = tree_height (root self)) as Hh.
  { unfold stats_tree_height.
    rewrite levels_spec, length_fmap, length_seq.
    apply depth_tree_height. }
  split; [|split; [done|]].
  - unfold stats_node_count, get_nodes_by_level.
    destruct (root self) as [|d l r h] eqn:E; [done|]. cbn [snd].
    rewrite collect_count by (simpl; lia). done.
  - intros Hex. rewrite Hh. symmetry. by apply heights_exact_get.
Qed.

Lemma stats_of_levels_witness :
  Z.of_nat (stats_tree_height
              (get_nodes_by_level
                 {| root := Node 20 (Node 10 Empty Empty 1) Empty 2 |}).2)
  = _get_height (Node 20 (Node 10 Empty Empty 1) Empty 2).
Proof.
  apply (stats_of_levels {| root := Node 20 (Node 10 Empty Empty 1) Empty 2 |}).
  concrete_tree.
Defined.

(** X12: every [insert] that returns, on any tree and for any key (also one
    already stored), adds exactly one node and at most the given key to the
    key set. *)
Theorem insert_adds_one_node (self t' : AVLTree) (k : Z) :
  insert self k = Some t' →
  size (root t') = S (size (root self)) ∧
  keys (root t') = {[ k ]} ∪ keys (root self).
Proof.
  unfold insert. intros H.
  destruct (_insert_recursive (root self) k) as [r|] eqn:E; [|done].
  injection H as <-. by apply insert_shape.
Qed.

Lemma insert_adds_one_node_witness :
  size (Node 10 Empty (Node 10 Empty Empty 1) 2)
    = S (size (Node 10 Empty Empty 1)) ∧
  keys (Node 10 Empty (Node 10 Empty Empty 1) 2)
    = {[ 10 ]} ∪ keys (Node 10 Empty Empty 1).
Proof.
  apply (insert_adds_one_node {| root := Node 10 Empty Empty 1 |}
           {| root := Node 10 Empty (Node 10 Empty Empty 1) 2 |} 10).
  reflexivity.
Defined.

(** X13: a tree that satisfies the invariants and has height at least [2k]
    has at least [2^k - 1] nodes: the height is at most twice the binary
    logarithm of the number of nodes plus one. *)
Theorem avl_height_bound (t : TreeNode) (k : nat) :
  avl_inv t → 2 * Z.of_nat k ≤ _get_height t → (2 ^ k ≤ S (size t))%nat.
Proof.
  revert k. induction t as [|d l IHl r IHr h]; intros k Hinv Hk.
  - simpl in Hk. assert (k = 0%nat) as -> by lia. simpl. lia.
  - inv_node Hinv. destruct k as [|k]; [simpl; lia|].
    cbn [_get_height] in Hk.
    assert (2 ^ k ≤ S (size l))%nat by (apply IHl; [done|lia]).
    assert (2 ^ k ≤ S (size r))%nat by (apply IHr; [done|lia]).
    simpl. lia.
Qed.

Lemma avl_height_bound_witness :
  (2 ^ 1 ≤ S (size (Node 20 (Node 10 Empty Empty 1)
                      (Node 30 Empty Empty 1) 2)))%nat.
Proof.
  apply (avl_height_bound
           (Node 20 (Node 10 Empty Empty 1) (Node 30 Empty Empty 1) 2) 1).
  - concrete_tree.
  - simpl. lia.
Defined.
